(** * dmon: directory-size snapshots and growth reports

    A shallow embedding of [dmon.cpp]: the [FileInfo] tree, the directory
    walk ([set_path], [walk]), the snapshot codec ([to_json], [from_json],
    [sort_subs]) and the sorted-merge [diff].

    Conventions.
    - [size_t] is the 64-bit unsigned word of the LP64 targets the program
      is written for; [unsigned] and [int] are 32 bits wide.  Every
      conversion and every addition that can wrap is written out.
    - RapidJSON is an external library.  A parsed document is modelled by
      the DOM type [JValue]; the accessors [GetString] and [GetUint] carry
      RapidJSON's assertion on the value kind, rendered here as [None].
    - [LOG] lines are modelled by structured [Report] records that carry
      the byte count; [readable_size], which renders it, is modelled on
      its own as the text it prints. *)

From Stdlib Require Import ZArith List String Ascii Bool Lia.
From Stdlib Require Import Sorting.Sorted Sorting.Permutation.
From Stdlib Require Import Numbers.DecimalString.

Local Open Scope string_scope.
Import ListNotations.
Local Open Scope list_scope.
Local Open Scope Z_scope.

(** ** Data model *)

(** [enum FileType] *)
Definition FILE_TYPE_UNKNOWN : Z := 0.
Definition FILE_TYPE_REGULAR : Z := 1.
Definition FILE_TYPE_DIRECTORY : Z := 2.
Definition FILE_TYPE_LINK : Z := 3.

Definition BLOCK_SIZE : Z := 512.
Definition SEP : ascii := "/"%char.

(** Machine integers. *)
Definition SIZE_T_MOD : Z := 2 ^ 64.
Definition UINT_MOD : Z := 2 ^ 32.
Definition INT_MAX : Z := 2 ^ 31 - 1.

(** conversion to [size_t] *)
Definition to_size_t (z : Z) : Z := z mod SIZE_T_MOD.
(** conversion to [unsigned] *)
Definition to_unsigned (z : Z) : Z := z mod UINT_MOD.
(** conversion of an [unsigned] to [int] *)
Definition to_int (u : Z) : Z := if u <=? INT_MAX then u else u - UINT_MOD.

(** [struct FileInfo]; [sub_files_] owns its elements, so the vector of
    pointers is a list of nodes. *)
Unset Elimination Schemes.
Inductive FileInfo : Type :=
  mkFileInfo (size_ : Z) (path_ : string) (sub_files_ : list FileInfo) (type_ : Z).
Set Elimination Schemes.

Definition size_ (f : FileInfo) : Z := let '(mkFileInfo s _ _ _) := f in s.
Definition path_ (f : FileInfo) : string := let '(mkFileInfo _ p _ _) := f in p.
Definition sub_files_ (f : FileInfo) : list FileInfo := let '(mkFileInfo _ _ l _) := f in l.
Definition type_ (f : FileInfo) : Z := let '(mkFileInfo _ _ _ t) := f in t.

Definition set_size (f : FileInfo) (s : Z) : FileInfo :=
  mkFileInfo s (path_ f) (sub_files_ f) (type_ f).
Definition set_path_ (f : FileInfo) (p : string) : FileInfo :=
  mkFileInfo (size_ f) p (sub_files_ f) (type_ f).
Definition set_sub_files (f : FileInfo) (l : list FileInfo) : FileInfo :=
  mkFileInfo (size_ f) (path_ f) l (type_ f).
Definition set_type (f : FileInfo) (t : Z) : FileInfo :=
  mkFileInfo (size_ f) (path_ f) (sub_files_ f) t.

(** The constructor [FileInfo()]. *)
Definition FileInfo0 : FileInfo := mkFileInfo 0 "" [] FILE_TYPE_UNKNOWN.

(** Induction over a tree together with all of its children. *)
Section FileInfo_induction.
Variable P : FileInfo -> Prop.
Hypothesis step : forall s p l t, Forall P l -> P (mkFileInfo s p l t).

Fixpoint FileInfo_ind' (f : FileInfo) : P f :=
  match f with
  | mkFileInfo s p l t =>
      step s p l t
        ((fix all (l : list FileInfo) : Forall P l :=
            match l with
            | [] => Forall_nil P
            | x :: r => Forall_cons x (FileInfo_ind' x) (all r)
            end) l)
  end.
End FileInfo_induction.

(** ** Paths *)

Fixpoint last_char (s : string) : option ascii :=
  match s with
  | EmptyString => None
  | String c EmptyString => Some c
  | String _ r => last_char r
  end.

Definition join_path (prefix postfix : string) : string :=
  let hasSep := match last_char prefix with
                | Some c => Ascii.eqb c SEP
                | None => false
                end in
  if hasSep then (prefix ++ postfix)%string
  else (prefix ++ String SEP postfix)%string.

(** [std::string::operator<]: lexicographic on unsigned bytes. *)
Definition path_lt (a b : string) : bool := String.ltb a b.

(** ** Sorting the children: [PathLess] and [sort_subs]

    [std::sort] yields some permutation of its input in which no element
    compares less than its predecessor, and leaves open in which order
    elements of equal path come out.  The model is insertion sort, which
    is one such permutation (the one that keeps elements of equal path
    in their order of arrival); on children with pairwise different
    paths there is no other ([sorted_permutation_unique]). *)
Definition PathLess (lhs rhs : FileInfo) : bool := path_lt (path_ lhs) (path_ rhs).

Fixpoint insert_sub (x : FileInfo) (l : list FileInfo) : list FileInfo :=
  match l with
  | [] => [x]
  | h :: t => if PathLess h x then h :: insert_sub x t else x :: h :: t
  end.

Definition sort_list (l : list FileInfo) : list FileInfo :=
  fold_right insert_sub [] l.

Definition sort_subs (this : FileInfo) : FileInfo :=
  set_sub_files this (sort_list (sub_files_ this)).

(** The ordering invariant of a children sequence: ascending by path. *)
Definition path_le (a b : FileInfo) : Prop := PathLess b a = false.
Definition subs_sorted (l : list FileInfo) : Prop := Sorted path_le l.

(** Strictly ascending: no two children share a path. *)
Definition subs_ascending (l : list FileInfo) : Prop :=
  Sorted (fun a b => PathLess a b = true) l.

(** Boolean version, for evaluation. *)
Fixpoint subs_sortedb (l : list FileInfo) : bool :=
  match l with
  | [] => true
  | x :: r => match r with
              | [] => true
              | y :: _ => negb (PathLess y x) && subs_sortedb r
              end
  end.

(** The invariant at every node of a tree. *)
Fixpoint tree_sorted (f : FileInfo) : Prop :=
  match f with
  | mkFileInfo _ _ l _ =>
      subs_sorted l /\
      (fix all (l : list FileInfo) : Prop :=
         match l with
         | [] => True
         | x :: r => tree_sorted x /\ all r
         end) l
  end.

(** ** RapidJSON documents *)

(** The DOM of a parsed document.  A number is either an integer (of any
    of RapidJSON's integer kinds) or a double, of which only the bit
    pattern is kept. *)
Unset Elimination Schemes.
Inductive JValue : Type :=
| JNull
| JFalse
| JTrue
| JObject (members : list (string * JValue))
| JArray (elements : list JValue)
| JString (s : string)
| JInt (z : Z)
| JDouble (bits : Z).
Set Elimination Schemes.

Definition IsObject (v : JValue) : bool :=
  match v with JObject _ => true | _ => false end.
Definition IsArray (v : JValue) : bool :=
  match v with JArray _ => true | _ => false end.
Definition IsString (v : JValue) : bool :=
  match v with JString _ => true | _ => false end.
(** [IsUint]: an integer that fits [unsigned]. *)
Definition IsUint (v : JValue) : bool :=
  match v with JInt z => (0 <=? z) && (z <? UINT_MOD) | _ => false end.

(** [GetString] with [GetStringLength]: asserts [IsString]. *)
Definition GetString (v : JValue) : option string :=
  match v with JString s => Some s | _ => None end.
(** [GetUint]: asserts [IsUint]. *)
Definition GetUint (v : JValue) : option Z :=
  match v with
  | JInt z => if (0 <=? z) && (z <? UINT_MOD) then Some z else None
  | _ => None
  end.

(** The C string a [const char *] denotes: the bytes before the first NUL. *)
Fixpoint c_str (s : string) : string :=
  match s with
  | EmptyString => EmptyString
  | String c r => if Ascii.eqb c zero then EmptyString else String c (c_str r)
  end.

(** [0 == strcmp(lit, name)] for a literal without NUL. *)
Definition name_is (lit name : string) : bool := String.eqb lit (c_str name).

(** ** Serialization: [to_json]

    The value is the document denoted by the writer calls, in call order.
    [Writer::Uint] takes an [unsigned], so both [size_] (a [size_t]) and
    [type_] (an [int]) are converted at the call. *)
Fixpoint to_json (this : FileInfo) : JValue :=
  match this with
  | mkFileInfo size path subs type =>
      JObject
        ([("path", JString path);
          ("size", JInt (to_unsigned size));
          ("type", JInt (to_unsigned type))]
         ++ match subs with
            | [] => []
            | _ :: _ => [("subs", JArray (map to_json subs))]
            end)
  end.

(** ** Deserialization: [from_json]

    A call either returns a [bool] and leaves the receiver in a new state,
    or dies on a RapidJSON assertion. *)
Inductive Run : Type :=
| Done (ret : bool) (this : FileInfo)
| Crash.

Section from_json_loops.
(** the recursive call [sub->from_json(...)] *)
Variable from_json : JValue -> FileInfo -> Run.

(** The loop over the elements of a [subs] array, appending to
    [sub_files_]; [None] when an element dies. *)
Fixpoint subs_loop (es : list JValue) (subs : list FileInfo) : option (list FileInfo) :=
  match es with
  | [] => Some subs
  | e :: es' =>
      match from_json e FileInfo0 with
      | Done true sub => subs_loop es' (subs ++ [sub])
      | Done false _ => subs_loop es' subs
      | Crash => None
      end
  end.

(** The loop over the members of an object. *)
Fixpoint members_loop (ms : list (string * JValue)) (this : FileInfo) : Run :=
  match ms with
  | [] => Done true this
  | (name, value) :: ms' =>
      if name_is "path" name then
        match GetString value with
        | Some s => members_loop ms' (set_path_ this s)
        | None => Crash
        end
      else if name_is "size" name then
        match GetUint value with
        | Some u => members_loop ms' (set_size this u)
        | None => Crash
        end
      else if name_is "type" name then
        match GetUint value with
        | Some u => members_loop ms' (set_type this (to_int u))
        | None => Crash
        end
      else if name_is "subs" name then
        match value with
        | JArray es =>
            match subs_loop es (sub_files_ this) with
            | Some subs => members_loop ms' (sort_subs (set_sub_files this subs))
            | None => Crash
            end
        | _ => members_loop ms' this
        end
      else members_loop ms' this
  end.
End from_json_loops.

Fixpoint from_json (object : JValue) (this : FileInfo) {struct object} : Run :=
  match object with
  | JObject members => members_loop from_json members this
  | _ => Done false this
  end.

(** [doc.ParseStream] on the opened file: a parse error or a document. *)
Inductive ParseResult : Type :=
| HasParseError
| Document (doc : JValue).

(** [from_json(const std::string &file_path)]: [None] is a file that
    [fopen] cannot open, [Some r] the outcome of parsing its content. *)
Definition from_json_file (file : option ParseResult) (this : FileInfo) : Run :=
  match file with
  | None => Done false this
  | Some HasParseError => Done false this
  | Some (Document doc) => from_json doc this
  end.

(** Deserialization into a fresh node. *)
Definition deserialize (doc : JValue) : Run := from_json doc FileInfo0.

(** ** The file system seen by the walk *)

(** The file kind that [S_ISDIR], [S_ISREG] and [S_ISLNK] test in
    [st_mode]. *)
Inductive FileMode : Type := S_IFDIR | S_IFREG | S_IFLNK | S_IFOTHER.

Record Stat : Type := mkStat { st_mode : FileMode; st_blocks : Z }.

(** What the walk observes below one path: the outcome of [lstat] on it
    ([None] on failure) and the outcome of [opendir]/[readdir] ([None]
    when the directory cannot be opened), each entry with its [d_name]
    and what is found below the joined path. *)
Unset Elimination Schemes.
Inductive FsNode : Type :=
  mkFsNode (lstat : option Stat) (opendir : option (list (string * FsNode))).
Set Elimination Schemes.

Definition lstat (fs : FsNode) : option Stat := let '(mkFsNode st _) := fs in st.
Definition opendir (fs : FsNode) : option (list (string * FsNode)) :=
  let '(mkFsNode _ d) := fs in d.

(** ** The tree builder: [set_path] and [walk] *)

Definition set_path (this : FileInfo) (path : string) (st : option Stat) : FileInfo :=
  let this := set_path_ this path in
  match st with
  | None => this
  | Some st =>
      match st_mode st with
      | S_IFDIR => set_size (set_type this FILE_TYPE_DIRECTORY) (to_size_t (st_blocks st * BLOCK_SIZE))
      | S_IFREG => set_size (set_type this FILE_TYPE_REGULAR) (to_size_t (st_blocks st * BLOCK_SIZE))
      | S_IFLNK => set_size (set_type this FILE_TYPE_LINK) (to_size_t (st_blocks st * BLOCK_SIZE))
      | S_IFOTHER => set_type this FILE_TYPE_UNKNOWN
      end
  end.

(** the [strcmp] test on [d_name] that skips the two pseudo-entries *)
Definition is_dot (d_name : string) : bool :=
  String.eqb "." d_name || String.eqb ".." d_name.

Section walk_loop.
(** the recursive call [sub_file->walk(depth - 1)] *)
Variable walk : FsNode -> Z -> FileInfo -> FileInfo.
Variable depth : Z.

(** The [readdir] loop.  [sub_file] is pushed as a pointer before it is
    walked, so the vector holds the walked node. *)
Fixpoint readdir_loop (ents : list (string * FsNode)) (this : FileInfo) : FileInfo :=
  match ents with
  | [] => this
  | (d_name, child) :: ents' =>
      if is_dot d_name then readdir_loop ents' this
      else
        let path := join_path (path_ this) d_name in
        let sub_file := set_path FileInfo0 path (lstat child) in
        if type_ sub_file =? FILE_TYPE_UNKNOWN then readdir_loop ents' this
        else
          let sub_file :=
            if type_ sub_file =? FILE_TYPE_DIRECTORY
            then walk child (depth - 1) sub_file
            else sub_file in
          let this :=
            if depth >? 0
            then set_sub_files this (sub_files_ this ++ [sub_file])
            else this in
          readdir_loop ents' (set_size this (to_size_t (size_ this + size_ sub_file)))
  end.
End walk_loop.

(** [depth] is an [int]; it is decremented once per directory level and
    is kept unbounded here. *)
Fixpoint walk (fs : FsNode) (depth : Z) (this : FileInfo) {struct fs} : FileInfo :=
  if negb (type_ this =? FILE_TYPE_DIRECTORY) then this
  else
    match fs with
    | mkFsNode _ (Some ents) => readdir_loop walk depth ents this
    | mkFsNode _ None => this
    end.

(** [cmd_stat]: [root_file.set_path(root); root_file.walk(depth)] (with
    depth 5 there). *)
Definition build (root : string) (fs : FsNode) (depth : Z) : FileInfo :=
  walk fs depth (set_path FileInfo0 root (lstat fs)).

(** ** The diff engine *)

(** One [LOG] line of [diff]: [path new +size], [path del -size] or
    [path +inc], with the byte count before rendering. *)
Inductive Report : Type :=
| RNew (path : string) (size : Z)
| RDel (path : string) (size : Z)
| RInc (path : string) (inc : Z).

(** The locals of [diff] after its loops. *)
Record MergeState : Type :=
  mkMerge { lines : list Report; change_count : Z; last_inc : Z }.

Definition emit (out : list Report) (m : MergeState) : MergeState :=
  mkMerge (out ++ lines m) (change_count m) (last_inc m).

(** The [for] loop after the merge: the rest of the newer children. *)
Fixpoint tail_loop (ls : list FileInfo) (change_count last_inc : Z) : MergeState :=
  match ls with
  | [] => mkMerge [] change_count last_inc
  | lfile :: ls' =>
      emit [RNew (path_ lfile) (size_ lfile)]
           (tail_loop ls' change_count (size_ lfile))
  end.

Section merge_loop.
(** the recursive call [lfile.diff(rfile)] *)
Variable diff : FileInfo -> FileInfo -> list Report.

(** The [while] loop over the two cursors, followed by [tail_loop].
    The lists are the children from [i] and from [j] on.  The counter
    grows by at most one per child, far from the range of [size_t], and
    is kept unbounded. *)
Fixpoint merge_loop (ls : list FileInfo) : list FileInfo -> Z -> Z -> MergeState :=
  match ls with
  | [] => fun _ change_count last_inc => tail_loop [] change_count last_inc
  | lfile :: ls' =>
      fix merge_older (rs : list FileInfo) : Z -> Z -> MergeState :=
        match rs with
        | [] => fun change_count last_inc =>
                  tail_loop (lfile :: ls') change_count last_inc
        | rfile :: rs' => fun change_count last_inc =>
            if String.eqb (path_ lfile) (path_ rfile) then
              emit (diff lfile rfile)
                   (merge_loop ls' rs'
                      (change_count + (if negb (size_ lfile =? size_ rfile) then 1 else 0))
                      (if size_ lfile >? size_ rfile
                       then size_ lfile - size_ rfile else last_inc))
            else if path_lt (path_ lfile) (path_ rfile) then
              emit [RNew (path_ lfile) (size_ lfile)]
                   (if size_ lfile >? 0
                    then merge_loop ls' (rfile :: rs') (change_count + 1) (size_ lfile)
                    else merge_loop ls' (rfile :: rs') change_count last_inc)
            else
              emit [RDel (path_ rfile) (size_ rfile)]
                   (if size_ rfile >? 0
                    then merge_older rs' (change_count + 1) last_inc
                    else merge_older rs' change_count last_inc)
        end
  end.
End merge_loop.

(** [this->diff(older)], [this] being the newer tree; the result is the
    sequence of lines in the order they are logged. *)
Fixpoint diff (newer older : FileInfo) {struct newer} : list Report :=
  match newer with
  | mkFileInfo size path subs type =>
      if size <=? size_ older then []
      else if (type =? FILE_TYPE_DIRECTORY) && (type_ older =? FILE_TYPE_DIRECTORY) then
        let m := merge_loop diff subs (sub_files_ older) 0 0 in
        let total_inc := size - size_ older in
        if (change_count m =? 1) && (last_inc m =? total_inc)
        then lines m
        else lines m ++ [RInc path total_inc]
      else [RInc path (size - size_ older)]
  end.

(** * Notions used in the statements *)

(** ** Induction over documents

    A property of a value is proved together with the same property of
    the elements it holds when it is an array: the members of an object
    that matter to [from_json] are arrays of objects. *)
Section JValue_induction.
Variable P : JValue -> Prop.

Definition below (v : JValue) : Prop :=
  match v with
  | JArray es => Forall P es
  | _ => True
  end.

Hypothesis P_null : P JNull.
Hypothesis P_false : P JFalse.
Hypothesis P_true : P JTrue.
Hypothesis P_string : forall s, P (JString s).
Hypothesis P_int : forall z, P (JInt z).
Hypothesis P_double : forall b, P (JDouble b).
Hypothesis P_array : forall es, Forall P es -> P (JArray es).
Hypothesis P_object :
  forall ms, Forall (fun m => P (snd m) /\ below (snd m)) ms -> P (JObject ms).

Fixpoint JValue_deep (v : JValue) : P v /\ below v :=
  match v with
  | JNull => conj P_null I
  | JFalse => conj P_false I
  | JTrue => conj P_true I
  | JString s => conj (P_string s) I
  | JInt z => conj (P_int z) I
  | JDouble b => conj (P_double b) I
  | JArray es =>
      let H := (fix all (es : list JValue) : Forall P es :=
                  match es with
                  | [] => Forall_nil P
                  | e :: r => Forall_cons e (proj1 (JValue_deep e)) (all r)
                  end) es in
      conj (P_array es H) H
  | JObject ms =>
      conj (P_object ms
              ((fix all (ms : list (string * JValue))
                  : Forall (fun m => P (snd m) /\ below (snd m)) ms :=
                  match ms with
                  | [] => Forall_nil _
                  | m :: r => Forall_cons m (JValue_deep (snd m)) (all r)
                  end) ms))
           I
  end.

Definition JValue_ind' (v : JValue) : P v := proj1 (JValue_deep v).
End JValue_induction.

(** every node the element parses to satisfies [R] *)
Definition parses_to_R (F : JValue -> FileInfo -> Run) (R : FileInfo -> Prop)
           (e : JValue) : Prop :=
  forall n, F e FileInfo0 = Done true n -> R n.

(** What a tree becomes when it is written and read back: sizes and type
    codes pass through [unsigned], children are sorted again. *)
Fixpoint reloaded (f : FileInfo) : FileInfo :=
  match f with
  | mkFileInfo size path subs type =>
      mkFileInfo (to_unsigned size) path (sort_list (map reloaded subs))
                 (to_int (to_unsigned type))
  end.

(** The trees the codec reproduces exactly: sizes that fit [unsigned],
    type codes that fit [int], children strictly ascending at every
    node. *)
Fixpoint codec_exact (f : FileInfo) : Prop :=
  match f with
  | mkFileInfo size _ subs type =>
      0 <= size < UINT_MOD /\ - 2 ^ 31 <= type <= INT_MAX /\ subs_ascending subs /\
      (fix all (l : list FileInfo) : Prop :=
         match l with
         | [] => True
         | x :: r => codec_exact x /\ all r
         end) subs
  end.

Section FsNode_induction.
Variable P : FsNode -> Prop.
Hypothesis step :
  forall st d,
    match d with
    | Some ents => Forall (fun e => P (snd e)) ents
    | None => True
    end -> P (mkFsNode st d).

Fixpoint FsNode_ind' (fs : FsNode) : P fs :=
  match fs with
  | mkFsNode st d =>
      step st d
        match d with
        | Some ents =>
            (fix all (ents : list (string * FsNode))
               : Forall (fun e => P (snd e)) ents :=
               match ents with
               | [] => Forall_nil _
               | e :: r => Forall_cons e (FsNode_ind' (snd e)) (all r)
               end) ents
        | None => I
        end
  end.
End FsNode_induction.

(** The type [set_path] gives a fresh node. *)
Definition entry_type (st : option Stat) : Z :=
  type_ (set_path FileInfo0 "" st).

(** The entries of a listing that the loop does not skip. *)
Definition kept (e : string * FsNode) : bool :=
  negb (is_dot (fst e)) && negb (entry_type (lstat (snd e)) =? FILE_TYPE_UNKNOWN).

(** The entries the loop visits without skipping: the kept entries of a
    directory that could be opened, in the order [readdir] gave them. *)
Definition listing (fs : FsNode) : list (string * FsNode) :=
  if entry_type (lstat fs) =? FILE_TYPE_DIRECTORY then
    match opendir fs with
    | Some ents => filter kept ents
    | None => []
    end
  else [].

(** The entries whose nodes the walk appends to [sub_files_]. *)
Definition retained (fs : FsNode) (depth : Z) : list (string * FsNode) :=
  if depth >? 0 then listing fs else [].

(** The bytes below a path, counted without any wrap: the allocated
    blocks of every classified entry that is reachable through opened
    directories. *)
Fixpoint fs_total (fs : FsNode) : Z :=
  match fs with
  | mkFsNode None _ => 0
  | mkFsNode (Some st) d =>
      match st_mode st with
      | S_IFOTHER => 0
      | S_IFDIR =>
          st_blocks st * BLOCK_SIZE +
          match d with
          | Some ents =>
              (fix sum (ents : list (string * FsNode)) : Z :=
                 match ents with
                 | [] => 0
                 | (d_name, child) :: r =>
                     (if is_dot d_name then 0 else fs_total child) + sum r
                 end) ents
          | None => 0
          end
      | _ => st_blocks st * BLOCK_SIZE
      end
  end.

Definition entries_total (ents : list (string * FsNode)) : Z :=
  fold_right (fun e acc => (if is_dot (fst e) then 0 else fs_total (snd e)) + acc) 0 ents.

(** The node the loop makes of one kept entry is the tree built below the
    joined path. *)
Definition child_of (path : string) (depth : Z) (e : string * FsNode) : FileInfo :=
  build (join_path path (fst e)) (snd e) (depth - 1).

(** The running total of the loop. *)
Definition add_sizes (size : Z) (subs : list FileInfo) : Z :=
  fold_left (fun acc sub => to_size_t (acc + size_ sub)) subs size.

(** Sample trees. *)
Definition reg_file (path : string) (size : Z) : FileInfo :=
  mkFileInfo size path [] FILE_TYPE_REGULAR.
Definition directory (path : string) (size : Z) (subs : list FileInfo) : FileInfo :=
  mkFileInfo size path subs FILE_TYPE_DIRECTORY.

(** two children grown by 50 each *)
Definition two_grown_older : FileInfo :=
  directory "/r" 200 [reg_file "/r/a" 100; reg_file "/r/b" 100].
Definition two_grown_newer : FileInfo :=
  directory "/r" 300 [reg_file "/r/a" 150; reg_file "/r/b" 150].

(** one new child, after the last child of the older tree *)
Definition new_last_older : FileInfo :=
  directory "/r" 100 [reg_file "/r/a" 100].
Definition new_last_newer : FileInfo :=
  directory "/r" 150 [reg_file "/r/a" 100; reg_file "/r/b" 50].
(** the same new child, met while the older tree still has a child left *)
Definition new_inner_older : FileInfo :=
  directory "/r" 100 [reg_file "/r/a" 100; reg_file "/r/c" 0].

(** one grown child, then an empty new child at the end *)
Definition empty_last_older : FileInfo :=
  directory "/r" 100 [reg_file "/r/a" 100].
Definition empty_last_newer : FileInfo :=
  directory "/r" 150 [reg_file "/r/a" 150; reg_file "/r/z" 0].
Definition empty_inner_older : FileInfo :=
  directory "/r" 100 [reg_file "/r/a" 100; reg_file "/r/zz" 0].

(** a child that only the older tree has, after the newer children *)
Definition gone_last_older : FileInfo :=
  directory "/r" 120 [reg_file "/r/a" 100; reg_file "/r/c" 20].
Definition gone_last_newer : FileInfo :=
  directory "/r" 150 [reg_file "/r/a" 150].

Definition paths_sorted (ps : list string) : Prop :=
  Sorted (fun a b => path_lt b a = false) ps.

(** a directory whose listing comes back as [b], [a] *)
Definition fs_reg (blocks : Z) : FsNode := mkFsNode (Some (mkStat S_IFREG blocks)) None.
Definition fs_dir (blocks : Z) (ents : list (string * FsNode)) : FsNode :=
  mkFsNode (Some (mkStat S_IFDIR blocks)) (Some ents).
Definition fs_b_then_a : FsNode := fs_dir 8 [("b", fs_reg 8); ("a", fs_reg 8)].

(** a directory with a file and a subdirectory that holds two files, one
    of them in a directory of its own *)
Definition fs_deep : FsNode :=
  fs_dir 8 [(".", fs_dir 8 []); ("..", fs_dir 8 []);
            ("f", fs_reg 16);
            ("d", fs_dir 8 [("x", fs_reg 24);
                            ("gone", mkFsNode None None);
                            ("e", fs_dir 8 [("y", fs_reg 32)])])].

(** a document that lists its two children in descending order *)
Definition doc_reversed : JValue :=
  JObject [("subs", JArray [JObject [("path", JString "/r/b"); ("size", JInt 1)];
                            JObject [("size", JInt 2); ("path", JString "/r/a")]]);
           ("path", JString "/r")].

(** The nodes an array yields: one for each element that parses. *)
Definition parsed_subs (es : list JValue) : list FileInfo :=
  flat_map (fun e => match from_json e FileInfo0 with
                     | Done true sub => [sub]
                     | _ => []
                     end) es.

Definition members_of (v : JValue) : list (string * JValue) :=
  match v with
  | JObject ms => ms
  | _ => []
  end.

(** What the accessors assert of one member: a string for [path], an
    [unsigned] for [size] and [type], and the same of every object in a
    [subs] array. *)
Section member_kinds.
Variable well_typed : JValue -> bool.

Definition member_typed (m : string * JValue) : bool :=
  let (name, value) := m in
  if name_is "path" name then IsString value
  else if name_is "size" name then IsUint value
  else if name_is "type" name then IsUint value
  else if name_is "subs" name then
    match value with
    | JArray es => forallb well_typed es
    | _ => true
    end
  else true.
End member_kinds.

Fixpoint well_typed (v : JValue) : bool :=
  match v with
  | JObject ms => forallb (member_typed well_typed) ms
  | _ => true
  end.

(** The member names [from_json] acts on. *)
Inductive Field : Type := FPath | FSize | FType | FSubs.

Definition field_of (name : string) : option Field :=
  if name_is "path" name then Some FPath
  else if name_is "size" name then Some FSize
  else if name_is "type" name then Some FType
  else if name_is "subs" name then Some FSubs
  else None.

Definition known (m : string * JValue) : bool :=
  match field_of (fst m) with
  | Some _ => true
  | None => false
  end.

(** One turn of the member loop; [None] when an assertion fails. *)
Definition member_step (F : JValue -> FileInfo -> Run) (m : string * JValue)
           (this : FileInfo) : option FileInfo :=
  let (name, value) := m in
  match field_of name with
  | Some FPath => option_map (set_path_ this) (GetString value)
  | Some FSize => option_map (set_size this) (GetUint value)
  | Some FType => option_map (fun u => set_type this (to_int u)) (GetUint value)
  | Some FSubs =>
      match value with
      | JArray es =>
          option_map (fun subs => sort_subs (set_sub_files this subs))
                     (subs_loop F es (sub_files_ this))
      | _ => Some this
      end
  | None => Some this
  end.

(** a directory that holds one file of 2^23 blocks: 4 GiB *)
Definition fs_big : FsNode := fs_dir 8 [("big", fs_reg 8388608)].

(** * The rest of the program *)

(** ** File names: [flatten_path], [time_to_str], [make_json_file_name] *)

Fixpoint flatten_path (path : string) : string :=
  match path with
  | EmptyString => EmptyString
  | String c r => String (if Ascii.eqb c SEP then "_"%char else c) (flatten_path r)
  end.

(** [struct tm], as [localtime] filled it, with the [tv_usec] of the
    [timeval]. *)
Record Clock : Type :=
  mkClock { tm_year : Z; tm_mon : Z; tm_mday : Z;
           tm_hour : Z; tm_min : Z; tm_sec : Z; tv_usec : Z }.

(** The decimal digits [printf] writes for a number that is not
    negative. *)
Definition decimal (n : Z) : string :=
  NilZero.string_of_uint (N.to_uint (Z.to_N n)).

Fixpoint zeros (n : nat) : string :=
  match n with
  | O => EmptyString
  | S n' => String "0"%char (zeros n')
  end.

(** [%0wd]: sign first, then zeros up to the width, then the digits. *)
Definition fmt_0d (width : nat) (z : Z) : string :=
  let ds := decimal (Z.abs z) in
  if z <? 0
  then String "-"%char (zeros (width - 1 - String.length ds) ++ ds)%string
  else (zeros (width - String.length ds) ++ ds)%string.

(** [%0wzu] *)
Definition fmt_0zu (width : nat) (n : Z) : string :=
  let ds := decimal n in
  (zeros (width - String.length ds) ++ ds)%string.

(** [snprintf(buf, size, ...)]: what fits before the closing NUL. *)
Definition snprintf (size : nat) (text : string) : string :=
  substring 0 (size - 1) text.

(** The sums [tm_year + 1900] and [tm_mon + 1] are [int] sums. *)
Definition int_add (a b : Z) : Z := to_int (to_unsigned (a + b)).

Definition time_to_str (now : Clock) : string :=
  snprintf 128
    (fmt_0d 4 (int_add (tm_year now) 1900) ++ "." ++
     fmt_0d 2 (int_add (tm_mon now) 1) ++ "." ++
     fmt_0d 2 (tm_mday now) ++ "-" ++
     fmt_0d 2 (tm_hour now) ++ "." ++
     fmt_0d 2 (tm_min now) ++ "." ++
     fmt_0d 2 (tm_sec now) ++ "." ++
     fmt_0zu 6 (to_size_t (tv_usec now)))%string.

(** [make_json_file_name], with the time [time_to_str] reads. *)
Definition make_json_file_name (path : string) (now : Clock) : string :=
  ("dirs_" ++ flatten_path path ++ time_to_str now ++ ".json")%string.

(** no byte of the string is the separator *)
Fixpoint no_sep (s : string) : bool :=
  match s with
  | EmptyString => true
  | String c r => negb (Ascii.eqb c SEP) && no_sep r
  end.

(** ** [readable_size] *)

(** [num / den] rounded to the nearest integer, a tie to the even one:
    the rounding of [printf] for the digits it does not print, under the
    default rounding mode. *)
Definition round_half_even (num den : Z) : Z :=
  let q := num / den in
  let r2 := 2 * (num mod den) in
  if r2 <? den then q
  else if den <? r2 then q + 1
  else if Z.even q then q else q + 1.

(** [%.03lf] of the [double] whose value is [num / 1024], for [num] that
    is not negative: the value in thousandths, rounded, then the integer
    part, the point and three digits. *)
Definition fmt_3lf (num : Z) : string :=
  let total := round_half_even (num * 1000) 1024 in
  (decimal (total / 1000) ++ "." ++ fmt_0zu 3 (total mod 1000))%string.

Definition levels : list (Z * ascii) :=
  [(1024 * 1024 * 1024 * 1024, "T"%char);
   (1024 * 1024 * 1024, "G"%char);
   (1024 * 1024, "M"%char);
   (1024, "K"%char)].

(** The loop over the levels from [i] on, and the [%zu] after it.  All
    integers are [size_t]; with [nbytes >= size] no difference below
    wraps.  [fquot] is [quot + remainder / 1024.0]: [quot] is below
    1024, or below 2^24 under the unit [T], and [remainder] is below
    1024, so the division and the sum are exact in a [double] and
    [fquot] is [(quot * 1024 + remainder) / 1024]. *)
Fixpoint readable_loop (levels : list (Z * ascii)) (nbytes : Z) : string :=
  match levels with
  | [] => snprintf 64 (decimal nbytes)
  | (size, unit) :: rest =>
      if nbytes >=? size then
        let low_size := size / 1024 in
        let quot := nbytes / size in
        let remainder := (nbytes - quot * size) / low_size in
        if remainder =? 0 then snprintf 64 (decimal quot ++ String unit "")
        else
          let fquot_1024 := quot * 1024 + remainder in
          snprintf 64 (fmt_3lf fquot_1024 ++ String unit "")
      else readable_loop rest nbytes
  end.

Definition readable_size (nbytes : Z) : string := readable_loop levels nbytes.

(** ** The commands: [cmd_stat], [cmd_diff], [main] *)

(** What the program finds around it: the file system below a path, the
    outcome of opening and parsing a file, whether a file can be opened
    for writing, and the clock. *)
Record World : Type :=
  mkWorld { lookup : string -> FsNode;
            read_file : string -> option ParseResult;
            can_write : string -> bool;
            now : Clock }.

(** How a run ends: the value [main] returns, the lines of [diff] and
    the file written, or death on an assertion.  The other [LOG] lines
    and the usage text are left out. *)
Inductive Exit : Type :=
| Exited (code : Z) (report : list Report) (written : option (string * JValue))
| Aborted.

Definition cmd_stat (w : World) (args : list string) : Exit :=
  match args with
  | [root] =>
      let root_file := build root (lookup w root) 5 in
      let output_filename := make_json_file_name root (now w) in
      if can_write w output_filename
      then Exited 0 [] (Some (output_filename, to_json root_file))
      else Exited (-1) [] None
  | _ => Exited (-1) [] None
  end.

Definition cmd_diff (w : World) (args : list string) : Exit :=
  match args with
  | [old_stat; new_stat] =>
      match from_json_file (read_file w old_stat) FileInfo0 with
      | Crash => Aborted
      | Done false _ => Exited (-1) [] None
      | Done true old_file =>
          match from_json_file (read_file w new_stat) FileInfo0 with
          | Crash => Aborted
          | Done false _ => Exited (-1) [] None
          | Done true new_file => Exited 0 (diff new_file old_file) None
          end
      end
  | _ => Exited (-1) [] None
  end.

(** [argv] with [argc] its length. *)
Definition main (w : World) (argv : list string) : Exit :=
  match argv with
  | _ :: cmd :: args =>
      if String.eqb "s" cmd || String.eqb "stat" cmd then cmd_stat w args
      else if String.eqb "d" cmd || String.eqb "diff" cmd then cmd_diff w args
      else Exited (-1) [] None
  | _ => Exited 0 [] None
  end.

(** ** Notions for the further properties *)

(** The levels of children below a node. *)
Fixpoint height (f : FileInfo) : nat :=
  match f with
  | mkFileInfo _ _ subs _ =>
      (fix below (l : list FileInfo) : nat :=
         match l with
         | [] => O
         | x :: r => Nat.max (S (height x)) (below r)
         end) subs
  end.

(** The paths of all nodes of a tree. *)
Fixpoint all_paths (f : FileInfo) : list string :=
  match f with
  | mkFileInfo _ path subs _ => path :: flat_map all_paths subs
  end.

(** The nodes of a tree, parents first. *)
Fixpoint nodes (f : FileInfo) : list FileInfo :=
  match f with
  | mkFileInfo _ _ subs _ => f :: flat_map nodes subs
  end.

(** Only a directory has children, and each child is a regular file, a
    directory or a link. *)
Definition node_classified (n : FileInfo) : Prop :=
  (sub_files_ n <> [] -> type_ n = FILE_TYPE_DIRECTORY) /\
  Forall (fun c => type_ c = FILE_TYPE_REGULAR \/ type_ c = FILE_TYPE_DIRECTORY \/
                   type_ c = FILE_TYPE_LINK) (sub_files_ n).

(** Every child's path is the node's path joined with a name that is
    neither of the two pseudo-entries. *)
Definition node_joined (n : FileInfo) : Prop :=
  Forall (fun c => exists name, is_dot name = false /\
                                path_ c = join_path (path_ n) name) (sub_files_ n).

(** No two children of the node share a path. *)
Definition node_distinct (n : FileInfo) : Prop :=
  NoDup (map path_ (sub_files_ n)).

(** No two entries of a directory listing share a name. *)
Fixpoint distinct_names (fs : FsNode) : Prop :=
  match fs with
  | mkFsNode _ None => True
  | mkFsNode _ (Some ents) =>
      NoDup (map fst ents) /\
      (fix all (l : list (string * FsNode)) : Prop :=
         match l with
         | [] => True
         | e :: r => distinct_names (snd e) /\ all r
         end) ents
  end.

(** The fields of one node, and what they are after a round trip. *)
Definition node_fields (f : FileInfo) : string * Z * Z :=
  (path_ f, size_ f, type_ f).
Definition reloaded_fields (f : FileInfo) : string * Z * Z :=
  (path_ f, to_unsigned (size_ f), to_int (to_unsigned (type_ f))).

(** Two children that stand for the same unchanged entry. *)
Definition same_entry (l r : FileInfo) : Prop :=
  path_ l = path_ r /\ size_ l = size_ r.

(** A line comes from the merge of two children sequences in one of
    three ways. *)
Definition line_origin (F : FileInfo -> FileInfo -> list Report)
           (ls rs : list FileInfo) (x : Report) : Prop :=
  (exists l r, In l ls /\ In r rs /\ path_ l = path_ r /\ In x (F l r)) \/
  (exists l, In l ls /\ x = RNew (path_ l) (size_ l) /\
             forall r, In r rs -> path_ r <> path_ l) \/
  (exists r, In r rs /\ x = RDel (path_ r) (size_ r) /\
             forall l, In l ls -> path_ l <> path_ r).

(** The path a line names belongs to the tree it speaks of, and a growth
    is positive. *)
Definition line_ok (newer older : FileInfo) (x : Report) : Prop :=
  match x with
  | RNew p _ => In p (all_paths newer)
  | RDel p _ => In p (all_paths older)
  | RInc p inc => In p (all_paths newer) /\ 0 < inc
  end.

(** The elements of all [subs] arrays of a member list, in order. *)
Fixpoint subs_elements (ms : list (string * JValue)) : list JValue :=
  match ms with
  | [] => []
  | (name, value) :: ms' =>
      match field_of name, value with
      | Some FSubs, JArray es => es ++ subs_elements ms'
      | _, _ => subs_elements ms'
      end
  end.

(** * Properties *)

(** ** The path order *)

Lemma path_lt_asym (a b : string) : path_lt a b = true -> path_lt b a = false.
Proof.
  unfold path_lt, String.ltb. rewrite (String.compare_antisym a b).
  destruct (String.compare b a); simpl; intro H; congruence.
Qed.

Lemma path_lt_irrefl (a : string) : path_lt a a = false.
Proof.
  destruct (path_lt a a) eqn:E; [|reflexivity].
  pose proof (path_lt_asym _ _ E). congruence.
Qed.

Lemma path_lt_neq (a b : string) : path_lt a b = true -> String.eqb a b = false.
Proof.
  intro H. apply String.eqb_neq. intros ->. rewrite path_lt_irrefl in H. discriminate.
Qed.

Lemma ascii_compare_refl (a : ascii) : Ascii.compare a a = Eq.
Proof. unfold Ascii.compare. apply N.compare_refl. Qed.

Lemma ascii_compare_trans (a b c : ascii) :
  Ascii.compare a b = Lt -> Ascii.compare b c = Lt -> Ascii.compare a c = Lt.
Proof.
  unfold Ascii.compare. rewrite !N.compare_lt_iff. apply N.lt_trans.
Qed.

Lemma string_compare_trans (a : string) :
  forall b c, String.compare a b = Lt -> String.compare b c = Lt -> String.compare a c = Lt.
Proof.
  induction a as [|x a IH]; intros [|y b] [|z c]; simpl; try discriminate; auto.
  destruct (Ascii.compare x y) eqn:Exy; try discriminate;
    destruct (Ascii.compare y z) eqn:Eyz; try discriminate.
  - apply Ascii.compare_eq_iff in Exy, Eyz. subst. rewrite ascii_compare_refl. apply IH.
  - apply Ascii.compare_eq_iff in Exy. subst. rewrite Eyz. reflexivity.
  - apply Ascii.compare_eq_iff in Eyz. subst. rewrite Exy. reflexivity.
  - rewrite (ascii_compare_trans _ _ _ Exy Eyz). reflexivity.
Qed.

Lemma path_lt_trans (a b c : string) :
  path_lt a b = true -> path_lt b c = true -> path_lt a c = true.
Proof.
  unfold path_lt, String.ltb. intros Hab Hbc.
  destruct (String.compare a b) eqn:Eab; try discriminate.
  destruct (String.compare b c) eqn:Ebc; try discriminate.
  rewrite (string_compare_trans _ _ _ Eab Ebc). reflexivity.
Qed.

(** The order is total: what is not below is equal or above. *)
Lemma path_lt_total (a b : string) :
  path_lt b a = false -> a = b \/ path_lt a b = true.
Proof.
  unfold path_lt, String.ltb. rewrite (String.compare_antisym b a).
  destruct (String.compare a b) eqn:E; simpl; intro H; try discriminate.
  - left. apply String.compare_eq_iff. exact E.
  - right. reflexivity.
Qed.

Lemma path_le_trans (a b c : FileInfo) : path_le a b -> path_le b c -> path_le a c.
Proof.
  unfold path_le, PathLess. intros Hab Hbc.
  destruct (path_lt (path_ c) (path_ a)) eqn:Hca; [|reflexivity].
  destruct (path_lt_total _ _ Hab) as [E|Hlt].
  - rewrite E in Hca. congruence.
  - rewrite (path_lt_trans _ _ _ Hca Hlt) in Hbc. discriminate.
Qed.

(** ** [sort_subs] sorts, and only reorders *)

Lemma insert_sub_hd (x a : FileInfo) (l : list FileInfo) :
  path_le a x -> HdRel path_le a l -> HdRel path_le a (insert_sub x l).
Proof.
  intros Hax Hl. destruct l as [|h t]; simpl.
  - constructor. exact Hax.
  - destruct (PathLess h x); constructor.
    + inversion Hl; assumption.
    + exact Hax.
Qed.

Lemma insert_sub_sorted (x : FileInfo) (l : list FileInfo) :
  subs_sorted l -> subs_sorted (insert_sub x l).
Proof.
  unfold subs_sorted. induction l as [|h t IH]; simpl; intro Hs.
  - repeat constructor.
  - destruct (PathLess h x) eqn:E.
    + inversion Hs as [|? ? Ht Hh]; subst. constructor.
      * apply IH. exact Ht.
      * apply insert_sub_hd; [|exact Hh].
        unfold path_le, PathLess in *. apply path_lt_asym. exact E.
    + constructor; [exact Hs|]. constructor. exact E.
Qed.

Lemma sort_list_sorted (l : list FileInfo) : subs_sorted (sort_list l).
Proof.
  induction l as [|x l IH]; simpl.
  - constructor.
  - apply insert_sub_sorted. exact IH.
Qed.

Lemma insert_sub_perm (x : FileInfo) (l : list FileInfo) :
  Permutation (x :: l) (insert_sub x l).
Proof.
  induction l as [|h t IH]; simpl.
  - apply Permutation_refl.
  - destruct (PathLess h x).
    + eapply perm_trans; [apply perm_swap|]. apply perm_skip. exact IH.
    + apply Permutation_refl.
Qed.

Lemma sort_list_perm (l : list FileInfo) : Permutation l (sort_list l).
Proof.
  induction l as [|x l IH]; simpl.
  - constructor.
  - eapply perm_trans; [apply perm_skip; exact IH|]. apply insert_sub_perm.
Qed.

Lemma sort_list_Forall (P : FileInfo -> Prop) (l : list FileInfo) :
  Forall P l -> Forall P (sort_list l).
Proof.
  intro H. eapply Permutation_Forall; [apply sort_list_perm|exact H].
Qed.

(** A sequence that is already ascending is left as it is. *)
Lemma sort_list_sorted_id (l : list FileInfo) : subs_sorted l -> sort_list l = l.
Proof.
  unfold subs_sorted. induction l as [|x l IH]; simpl; intro Hs; [reflexivity|].
  inversion Hs as [|? ? Hl Hx]; subst. rewrite (IH Hl).
  destruct l as [|h t]; simpl; [reflexivity|].
  inversion Hx as [|? ? Hxh]; subst. unfold path_le in Hxh. rewrite Hxh. reflexivity.
Qed.

Lemma subs_ascending_sorted (l : list FileInfo) : subs_ascending l -> subs_sorted l.
Proof.
  unfold subs_ascending, subs_sorted. induction 1 as [|x l Hl IH Hx]; constructor.
  - exact IH.
  - destruct Hx as [|y r Hxy]; constructor.
    unfold path_le, PathLess in *. apply path_lt_asym. exact Hxy.
Qed.

(** Children with pairwise different paths have one sorted order only:
    whatever permutation [std::sort] returns for them, it is this one. *)
Lemma sorted_permutation_unique (l : list FileInfo) :
  subs_ascending l ->
  forall l', Permutation l l' -> subs_sorted l' -> l' = l.
Proof.
  unfold subs_ascending, subs_sorted. intro Hl.
  apply Sorted_StronglySorted in Hl;
    [|intros a b c Hab Hbc; unfold PathLess in *; eapply path_lt_trans; eassumption].
  induction Hl as [|x r Hr IH Hx]; intros l' Hperm Hl'.
  - apply Permutation_nil in Hperm. exact Hperm.
  - destruct l' as [|y r'].
    { apply Permutation_sym, Permutation_nil in Hperm. discriminate. }
    apply Sorted_StronglySorted in Hl'; [|intros a b c; apply path_le_trans].
    inversion Hl' as [|? ? Hr' Hy]; subst.
    assert (E : y = x).
    { assert (Hin : In y (x :: r)).
      { eapply Permutation_in; [apply Permutation_sym; exact Hperm|left; reflexivity]. }
      destruct Hin as [E|Hin]; [symmetry; exact E|].
      assert (Hxin : In x (y :: r')).
      { eapply Permutation_in; [exact Hperm|left; reflexivity]. }
      destruct Hxin as [E|Hxin]; [exact E|].
      rewrite Forall_forall in Hx, Hy.
      pose proof (Hx _ Hin) as Hxy. pose proof (Hy _ Hxin) as Hyx.
      unfold path_le in Hyx. congruence. }
    subst y. f_equal. apply IH.
    + eapply Permutation_cons_inv. exact Hperm.
    + apply StronglySorted_Sorted. exact Hr'.
Qed.

Lemma subs_sortedb_spec (l : list FileInfo) : subs_sortedb l = true <-> subs_sorted l.
Proof.
  unfold subs_sorted. induction l as [|x l IH]; simpl.
  - split; [constructor|reflexivity].
  - destruct l as [|y r].
    + split; [repeat constructor|reflexivity].
    + rewrite andb_true_iff, negb_true_iff, IH. split.
      * intros [Hxy Hs]. constructor; [exact Hs|constructor; exact Hxy].
      * intro Hs. inversion Hs as [|? ? Hl Hx]; subst.
        inversion Hx; subst. split; assumption.
Qed.

Lemma tree_sorted_unfold (s : Z) (p : string) (l : list FileInfo) (t : Z) :
  tree_sorted (mkFileInfo s p l t) <-> subs_sorted l /\ Forall tree_sorted l.
Proof.
  simpl. apply and_iff_compat_l.
  induction l as [|x r IH].
  - split; [constructor|trivial].
  - rewrite IH. split.
    + intros [Hx Hr]. constructor; assumption.
    + intro H. inversion H; subst. split; assumption.
Qed.

(** ** Deserialization keeps the children ascending *)

Lemma tree_sorted_subs (f : FileInfo) :
  tree_sorted f <-> subs_sorted (sub_files_ f) /\ Forall tree_sorted (sub_files_ f).
Proof. destruct f. apply tree_sorted_unfold. Qed.

Lemma tree_sorted_FileInfo0 : tree_sorted FileInfo0.
Proof. apply tree_sorted_subs. simpl. split; constructor. Qed.

Lemma members_loop_true (F : JValue -> FileInfo -> Run) (ms : list (string * JValue)) :
  forall this b n, members_loop F ms this = Done b n -> b = true.
Proof.
  induction ms as [|[name value] ms IH]; simpl; intros this b n H.
  - congruence.
  - destruct (name_is "path" name).
    { destruct (GetString value); [eauto|discriminate]. }
    destruct (name_is "size" name).
    { destruct (GetUint value); [eauto|discriminate]. }
    destruct (name_is "type" name).
    { destruct (GetUint value); [eauto|discriminate]. }
    destruct (name_is "subs" name); [|eauto].
    destruct value; eauto.
    destruct (subs_loop F elements (sub_files_ this)); [eauto|discriminate].
Qed.

Section parsed_children.
Variable F : JValue -> FileInfo -> Run.
Variable R : FileInfo -> Prop.

Lemma subs_loop_Forall (es : list JValue) :
  Forall (parses_to_R F R) es ->
  forall subs subs', Forall R subs -> subs_loop F es subs = Some subs' -> Forall R subs'.
Proof.
  induction 1 as [|e es He Hes IH]; simpl; intros subs subs' Hsubs Hloop.
  - congruence.
  - destruct (F e FileInfo0) as [[|] sub|] eqn:E; [| |discriminate].
    + apply (IH (subs ++ [sub])); [|exact Hloop].
      apply Forall_app. split; [exact Hsubs|]. constructor; [|constructor].
      apply He. exact E.
    + apply (IH subs); assumption.
Qed.
End parsed_children.

Lemma members_loop_sorted (F : JValue -> FileInfo -> Run) (ms : list (string * JValue)) :
  Forall (fun m => match snd m with
                   | JArray es => Forall (parses_to_R F tree_sorted) es
                   | _ => True
                   end) ms ->
  forall this b n,
    tree_sorted this -> members_loop F ms this = Done b n -> tree_sorted n.
Proof.
  induction 1 as [|[name value] ms Hm Hms IH]; simpl; intros this b n Hthis Hrun.
  - congruence.
  - assert (Hfield : forall this', sub_files_ this' = sub_files_ this -> tree_sorted this').
    { intros this' E. apply tree_sorted_subs. rewrite E. apply tree_sorted_subs. exact Hthis. }
    destruct (name_is "path" name).
    { destruct (GetString value); [|discriminate].
      eapply IH; [|exact Hrun]. apply Hfield. reflexivity. }
    destruct (name_is "size" name).
    { destruct (GetUint value); [|discriminate].
      eapply IH; [|exact Hrun]. apply Hfield. reflexivity. }
    destruct (name_is "type" name).
    { destruct (GetUint value); [|discriminate].
      eapply IH; [|exact Hrun]. apply Hfield. reflexivity. }
    destruct (name_is "subs" name); [|eauto].
    destruct value; eauto.
    destruct (subs_loop F elements (sub_files_ this)) as [subs|] eqn:E; [|discriminate].
    eapply IH; [|exact Hrun].
    apply tree_sorted_subs. simpl. split.
    + apply sort_list_sorted.
    + apply sort_list_Forall.
      eapply subs_loop_Forall; [exact Hm| |exact E].
      apply tree_sorted_subs. exact Hthis.
Qed.

Lemma from_json_tree_sorted (v : JValue) :
  forall this b n, tree_sorted this -> from_json v this = Done b n -> tree_sorted n.
Proof.
  induction v using JValue_ind'; simpl; intros this ret n Hthis Hrun;
    try (injection Hrun as _ <-; exact Hthis).
  eapply members_loop_sorted; [|exact Hthis|exact Hrun].
  eapply Forall_impl; [|exact H].
  intros [name value] [_ Hbelow]. simpl in *.
  destruct value; try exact I. simpl in Hbelow.
  eapply Forall_impl; [|exact Hbelow].
  intros e He n' Hn'. eapply He; [|exact Hn']. apply tree_sorted_FileInfo0.
Qed.

(** ** Reloading a serialized tree *)

Lemma to_unsigned_range (z : Z) : 0 <= to_unsigned z < UINT_MOD.
Proof. unfold to_unsigned, UINT_MOD. apply Z.mod_pos_bound. reflexivity. Qed.

Lemma GetUint_fits (u : Z) : 0 <= u < UINT_MOD -> GetUint (JInt u) = Some u.
Proof.
  intros [H0 H1]. unfold GetUint.
  apply Z.leb_le in H0. apply Z.ltb_lt in H1. rewrite H0, H1. reflexivity.
Qed.

Lemma GetUint_to_unsigned (z : Z) : GetUint (JInt (to_unsigned z)) = Some (to_unsigned z).
Proof. apply GetUint_fits, to_unsigned_range. Qed.

Section member_steps.
Variable F : JValue -> FileInfo -> Run.
Variables (value : JValue) (ms : list (string * JValue)) (this : FileInfo).

Lemma members_loop_path :
  members_loop F (("path", value) :: ms) this =
  match GetString value with
  | Some s => members_loop F ms (set_path_ this s)
  | None => Crash
  end.
Proof. reflexivity. Qed.

Lemma members_loop_size :
  members_loop F (("size", value) :: ms) this =
  match GetUint value with
  | Some u => members_loop F ms (set_size this u)
  | None => Crash
  end.
Proof. reflexivity. Qed.

Lemma members_loop_type :
  members_loop F (("type", value) :: ms) this =
  match GetUint value with
  | Some u => members_loop F ms (set_type this (to_int u))
  | None => Crash
  end.
Proof. reflexivity. Qed.

Lemma members_loop_subs (es : list JValue) :
  members_loop F (("subs", JArray es) :: ms) this =
  match subs_loop F es (sub_files_ this) with
  | Some subs => members_loop F ms (sort_subs (set_sub_files this subs))
  | None => Crash
  end.
Proof. reflexivity. Qed.
End member_steps.

Lemma subs_loop_to_json (l : list FileInfo) :
  Forall (fun x => from_json (to_json x) FileInfo0 = Done true (reloaded x)) l ->
  forall subs,
    subs_loop from_json (map to_json l) subs = Some (subs ++ map reloaded l).
Proof.
  induction 1 as [|x l Hx Hl IH]; simpl; intro subs.
  - rewrite app_nil_r. reflexivity.
  - rewrite Hx, IH, <- app_assoc. reflexivity.
Qed.

Lemma from_json_to_json (f : FileInfo) :
  from_json (to_json f) FileInfo0 = Done true (reloaded f).
Proof.
  induction f as [s p l t IH] using FileInfo_ind'.
  change (members_loop from_json
            ([("path", JString p); ("size", JInt (to_unsigned s));
              ("type", JInt (to_unsigned t))]
             ++ match l with
                | [] => []
                | _ :: _ => [("subs", JArray (map to_json l))]
                end) FileInfo0 = Done true (reloaded (mkFileInfo s p l t))).
  cbn [app]. rewrite members_loop_path. cbn [GetString].
  rewrite members_loop_size, GetUint_to_unsigned.
  rewrite members_loop_type, GetUint_to_unsigned.
  destruct l as [|x r]; [reflexivity|].
  rewrite members_loop_subs.
  cbn [sub_files_ set_type set_size set_path_ FileInfo0].
  rewrite (subs_loop_to_json _ IH). reflexivity.
Qed.

Lemma to_int_to_unsigned (t : Z) : - 2 ^ 31 <= t <= INT_MAX -> to_int (to_unsigned t) = t.
Proof.
  unfold to_int, to_unsigned, INT_MAX, UINT_MOD. intro H.
  destruct (Z.ltb_spec t 0) as [Hneg|Hpos].
  - replace (t mod 2 ^ 32) with (t + 2 ^ 32)
      by (apply (Z.mod_unique _ _ (-1)); lia).
    destruct (Z.leb_spec (t + 2 ^ 32) (2 ^ 31 - 1)); lia.
  - rewrite Z.mod_small by lia.
    destruct (Z.leb_spec t (2 ^ 31 - 1)); lia.
Qed.

Lemma codec_exact_unfold (s : Z) (p : string) (l : list FileInfo) (t : Z) :
  codec_exact (mkFileInfo s p l t) <->
  0 <= s < UINT_MOD /\ - 2 ^ 31 <= t <= INT_MAX /\ subs_ascending l /\ Forall codec_exact l.
Proof.
  simpl. do 3 apply and_iff_compat_l.
  induction l as [|x r IH].
  - split; [constructor|trivial].
  - rewrite IH. split.
    + intros [Hx Hr]. constructor; assumption.
    + intro H. inversion H; subst. split; assumption.
Qed.

Lemma reloaded_exact (f : FileInfo) : codec_exact f -> reloaded f = f.
Proof.
  induction f as [s p l t IH] using FileInfo_ind'.
  rewrite codec_exact_unfold. intros (Hs & Ht & Hsorted & Hl).
  cbn [reloaded]. rewrite to_int_to_unsigned by exact Ht.
  unfold to_unsigned. rewrite Z.mod_small by exact Hs.
  assert (E : map reloaded l = l).
  { clear Hsorted. induction l as [|x r IHr]; [reflexivity|].
    inversion IH; subst. inversion Hl; subst. simpl. f_equal; auto. }
  rewrite E, sort_list_sorted_id by (apply subs_ascending_sorted; exact Hsorted).
  reflexivity.
Qed.

(** Written and read back, such a tree is the tree itself. *)
Lemma round_trip_exact (f : FileInfo) :
  codec_exact f -> deserialize (to_json f) = Done true f.
Proof.
  intro H. unfold deserialize. rewrite from_json_to_json, reloaded_exact by exact H.
  reflexivity.
Qed.

(** ** The walk *)

Lemma fs_total_dir (st : Stat) (ents : list (string * FsNode)) :
  st_mode st = S_IFDIR ->
  fs_total (mkFsNode (Some st) (Some ents)) = st_blocks st * BLOCK_SIZE + entries_total ents.
Proof.
  intro E. simpl. rewrite E. f_equal.
  induction ents as [|[d_name child] r IH]; simpl; [reflexivity|].
  rewrite IH. reflexivity.
Qed.

Lemma set_path_type (this : FileInfo) (p : string) (st : option Stat) :
  type_ this = FILE_TYPE_UNKNOWN -> type_ (set_path this p st) = entry_type st.
Proof.
  intro E. unfold entry_type, set_path.
  destruct st as [st|]; [destruct (st_mode st)|]; simpl; auto.
Qed.

Lemma set_path_path (this : FileInfo) (p : string) (st : option Stat) :
  path_ (set_path this p st) = p.
Proof.
  unfold set_path. destruct st as [st|]; [destruct (st_mode st)|]; reflexivity.
Qed.

Lemma set_path_subs (this : FileInfo) (p : string) (st : option Stat) :
  sub_files_ (set_path this p st) = sub_files_ this.
Proof.
  unfold set_path. destruct st as [st|]; [destruct (st_mode st)|]; reflexivity.
Qed.

Lemma walk_not_dir (fs : FsNode) (depth : Z) (this : FileInfo) :
  (type_ this =? FILE_TYPE_DIRECTORY) = false -> walk fs depth this = this.
Proof. intro E. destruct fs. simpl. rewrite E. reflexivity. Qed.

Lemma walk_dir (st : option Stat) (d : option (list (string * FsNode)))
      (depth : Z) (this : FileInfo) :
  (type_ this =? FILE_TYPE_DIRECTORY) = true ->
  walk (mkFsNode st d) depth this =
  match d with
  | Some ents => readdir_loop walk depth ents this
  | None => this
  end.
Proof. intro E. simpl. rewrite E. reflexivity. Qed.

Lemma readdir_loop_spec (depth : Z) (ents : list (string * FsNode)) :
  forall this,
    readdir_loop walk depth ents this =
    mkFileInfo
      (add_sizes (size_ this) (map (child_of (path_ this) depth) (filter kept ents)))
      (path_ this)
      (sub_files_ this ++
       (if depth >? 0 then map (child_of (path_ this) depth) (filter kept ents) else []))
      (type_ this).
Proof.
  induction ents as [|[d_name child] ents IH]; intro this.
  - simpl. destruct this. destruct (depth >? 0); simpl; rewrite app_nil_r; reflexivity.
  - cbn [readdir_loop filter].
    change (kept (d_name, child))
      with (negb (is_dot d_name) && negb (entry_type (lstat child) =? FILE_TYPE_UNKNOWN)).
    destruct (is_dot d_name); cbn [negb andb]; [apply IH|].
    rewrite set_path_type by reflexivity.
    destruct (entry_type (lstat child) =? FILE_TYPE_UNKNOWN); cbn [negb]; [apply IH|].
    cbn [map].
    assert (Hsub : (if entry_type (lstat child) =? FILE_TYPE_DIRECTORY
                    then walk child (depth - 1)
                           (set_path FileInfo0 (join_path (path_ this) d_name) (lstat child))
                    else set_path FileInfo0 (join_path (path_ this) d_name) (lstat child))
                   = child_of (path_ this) depth (d_name, child)).
    { unfold child_of, build. cbn [fst snd].
      destruct (entry_type (lstat child) =? FILE_TYPE_DIRECTORY) eqn:E; [reflexivity|].
      rewrite walk_not_dir; [reflexivity|].
      rewrite set_path_type by reflexivity. exact E. }
    rewrite Hsub, IH. destruct this as [s p l t]. cbn [path_ size_ sub_files_ type_ set_size set_sub_files].
    destruct (depth >? 0); cbn [path_ size_ sub_files_ type_ set_size set_sub_files add_sizes fold_left].
    + rewrite <- app_assoc. reflexivity.
    + reflexivity.
Qed.

Lemma build_path (root : string) (fs : FsNode) (depth : Z) :
  path_ (build root fs depth) = root.
Proof.
  unfold build. destruct fs as [st d].
  destruct (type_ (set_path FileInfo0 root st) =? FILE_TYPE_DIRECTORY) eqn:E.
  - rewrite walk_dir by exact E. destruct d as [ents|].
    + rewrite readdir_loop_spec. cbn [path_]. apply set_path_path.
    + apply set_path_path.
  - rewrite walk_not_dir by exact E. apply set_path_path.
Qed.

(** The children of a built tree: the retained entries, each built below
    its joined path with one level less, in the order of the listing. *)
Lemma build_sub_files (root : string) (fs : FsNode) (depth : Z) :
  sub_files_ (build root fs depth) = map (child_of root depth) (retained fs depth).
Proof.
  unfold build, retained, listing. destruct fs as [st d]. cbn [lstat opendir].
  rewrite <- (set_path_type FileInfo0 root st) by reflexivity.
  destruct (type_ (set_path FileInfo0 root st) =? FILE_TYPE_DIRECTORY) eqn:E.
  - rewrite walk_dir by exact E. destruct d as [ents|].
    + rewrite readdir_loop_spec. cbn [sub_files_].
      rewrite set_path_subs, set_path_path. cbn [sub_files_ FileInfo0 app].
      destruct (depth >? 0); reflexivity.
    + rewrite set_path_subs. destruct (depth >? 0); reflexivity.
  - rewrite walk_not_dir by exact E. rewrite set_path_subs.
    destruct (depth >? 0); reflexivity.
Qed.

(** The size of a built tree: the node's own size and, added one by one,
    the size of the tree built below every listed entry. *)
Lemma build_size_children (root : string) (fs : FsNode) (depth : Z) :
  size_ (build root fs depth) =
  add_sizes (size_ (set_path FileInfo0 root (lstat fs)))
            (map (child_of root depth) (listing fs)).
Proof.
  unfold build, listing. destruct fs as [st d]. cbn [lstat opendir].
  rewrite <- (set_path_type FileInfo0 root st) by reflexivity.
  destruct (type_ (set_path FileInfo0 root st) =? FILE_TYPE_DIRECTORY) eqn:E.
  - rewrite walk_dir by exact E. destruct d as [ents|].
    + rewrite readdir_loop_spec. cbn [size_]. rewrite set_path_path. reflexivity.
    + reflexivity.
  - rewrite walk_not_dir by exact E. reflexivity.
Qed.

Lemma to_size_t_add (a b : Z) : to_size_t (to_size_t a + to_size_t b) = to_size_t (a + b).
Proof. unfold to_size_t. symmetry. apply Zplus_mod. Qed.

Lemma entry_type_unknown_total (fs : FsNode) :
  (entry_type (lstat fs) =? FILE_TYPE_UNKNOWN) = true -> fs_total fs = 0.
Proof.
  destruct fs as [[st|] d]; [|reflexivity].
  unfold entry_type, set_path. cbn [lstat fs_total].
  destruct (st_mode st); cbn; intro H; congruence.
Qed.

Lemma add_sizes_cons (size : Z) (sub : FileInfo) (subs : list FileInfo) :
  add_sizes size (sub :: subs) = add_sizes (to_size_t (size + size_ sub)) subs.
Proof. reflexivity. Qed.

Lemma add_sizes_total (path : string) (depth : Z) (ents : list (string * FsNode)) :
  Forall (fun e => forall root depth,
              size_ (build root (snd e) depth) = to_size_t (fs_total (snd e))) ents ->
  forall total,
    add_sizes (to_size_t total) (map (child_of path depth) (filter kept ents)) =
    to_size_t (total + entries_total ents).
Proof.
  induction 1 as [|[d_name child] ents He Hents IH]; intro total.
  - cbn. rewrite Z.add_0_r. reflexivity.
  - cbn [filter entries_total fold_right fst snd].
    fold (entries_total ents).
    change (kept (d_name, child))
      with (negb (is_dot d_name) && negb (entry_type (lstat child) =? FILE_TYPE_UNKNOWN)).
    destruct (is_dot d_name); cbn [negb andb].
    { rewrite IH. reflexivity. }
    destruct (entry_type (lstat child) =? FILE_TYPE_UNKNOWN) eqn:E; cbn [negb].
    { rewrite IH, (entry_type_unknown_total _ E). reflexivity. }
    cbn [map snd] in He |- *. rewrite add_sizes_cons.
    change (size_ (child_of path depth (d_name, child)))
      with (size_ (build (join_path path d_name) child (depth - 1))).
    rewrite He, to_size_t_add, IH, Z.add_assoc. reflexivity.
Qed.

(** The size of a built tree is the whole total below its path, as a
    [size_t], whatever the depth. *)
Lemma build_size (fs : FsNode) :
  forall root depth, size_ (build root fs depth) = to_size_t (fs_total fs).
Proof.
  induction fs as [st d IH] using FsNode_ind'. intros root depth. unfold build.
  cbn [lstat].
  destruct st as [st|]; [|destruct d; reflexivity].
  destruct (st_mode st) eqn:Emode.
  - assert (Eset : set_path FileInfo0 root (Some st) =
                   mkFileInfo (to_size_t (st_blocks st * BLOCK_SIZE)) root []
                              FILE_TYPE_DIRECTORY).
    { unfold set_path. rewrite Emode. reflexivity. }
    rewrite Eset, walk_dir by reflexivity.
    destruct d as [ents|].
    + rewrite readdir_loop_spec. cbn [size_ path_].
      rewrite (add_sizes_total _ _ _ IH), fs_total_dir by exact Emode. reflexivity.
    + cbn [size_ fs_total]. rewrite Emode, Z.add_0_r. reflexivity.
  - rewrite walk_not_dir.
    + unfold set_path. rewrite Emode. cbn [fs_total]. rewrite Emode. reflexivity.
    + unfold set_path. rewrite Emode. reflexivity.
  - rewrite walk_not_dir.
    + unfold set_path. rewrite Emode. cbn [fs_total]. rewrite Emode. reflexivity.
    + unfold set_path. rewrite Emode. reflexivity.
  - rewrite walk_not_dir.
    + unfold set_path. rewrite Emode. cbn [fs_total]. rewrite Emode. reflexivity.
    + unfold set_path. rewrite Emode. reflexivity.
Qed.

(** When the total fits [size_t], the size is the total itself. *)
Lemma build_size_exact (fs : FsNode) (root : string) (depth : Z) :
  0 <= fs_total fs < SIZE_T_MOD -> size_ (build root fs depth) = fs_total fs.
Proof.
  intro H. rewrite build_size. unfold to_size_t. apply Z.mod_small. exact H.
Qed.

(** ** The diff engine *)

Lemma diff_unfold (size : Z) (path : string) (subs : list FileInfo) (type : Z)
      (older : FileInfo) :
  diff (mkFileInfo size path subs type) older =
  if size <=? size_ older then []
  else if (type =? FILE_TYPE_DIRECTORY) && (type_ older =? FILE_TYPE_DIRECTORY) then
    let m := merge_loop diff subs (sub_files_ older) 0 0 in
    let total_inc := size - size_ older in
    if (change_count m =? 1) && (last_inc m =? total_inc)
    then lines m
    else lines m ++ [RInc path total_inc]
  else [RInc path (size - size_ older)].
Proof. reflexivity. Qed.

Lemma diff_no_growth (newer older : FileInfo) :
  size_ newer <= size_ older -> diff newer older = [].
Proof.
  destruct newer as [s p l t]. cbn [size_]. intro H.
  rewrite diff_unfold. apply Z.leb_le in H. rewrite H. reflexivity.
Qed.

Lemma merge_loop_older_done (F : FileInfo -> FileInfo -> list Report)
      (ls : list FileInfo) (change_count last_inc : Z) :
  merge_loop F ls [] change_count last_inc = tail_loop ls change_count last_inc.
Proof. destruct ls; reflexivity. Qed.

Lemma merge_loop_newer_done (F : FileInfo -> FileInfo -> list Report)
      (rs : list FileInfo) (change_count last_inc : Z) :
  merge_loop F [] rs change_count last_inc = mkMerge [] change_count last_inc.
Proof. reflexivity. Qed.

Lemma tail_loop_spec (ls : list FileInfo) :
  forall cc li,
    lines (tail_loop ls cc li) = map (fun lfile => RNew (path_ lfile) (size_ lfile)) ls /\
    change_count (tail_loop ls cc li) = cc /\
    last_inc (tail_loop ls cc li) = fold_left (fun _ lfile => size_ lfile) ls li.
Proof.
  induction ls as [|lfile ls IH]; intros cc li.
  - repeat split.
  - cbn [tail_loop emit lines change_count last_inc map fold_left app].
    destruct (IH cc (size_ lfile)) as (Hl & Hc & Hi). rewrite Hl, Hc, Hi.
    repeat split.
Qed.

(** ** Ordering of freshly built trees *)

Lemma subs_sorted_paths (l : list FileInfo) :
  subs_sorted l <-> paths_sorted (map path_ l).
Proof.
  unfold subs_sorted, paths_sorted. induction l as [|x l IH]; simpl.
  - split; constructor.
  - split; intro H; inversion H as [|? ? Hl Hx]; subst; constructor;
      try (apply IH; exact Hl);
      destruct l as [|y r]; simpl in *; constructor; inversion Hx; subst; assumption.
Qed.

(** C1, as stated, fails: the walk of a directory that [readdir] lists as
    [b], [a] returns the children in that order, which is not ascending. *)
Lemma C1_walk_leaves_readdir_order_counterexample :
  map path_ (sub_files_ (build "/r" fs_b_then_a 5)) = ["/r/b"; "/r/a"] /\
  ~ subs_sorted (sub_files_ (build "/r" fs_b_then_a 5)) /\
  ~ tree_sorted (build "/r" fs_b_then_a 5).
Proof.
  assert (Hno : ~ subs_sorted (sub_files_ (build "/r" fs_b_then_a 5))).
  { intro H. apply subs_sortedb_spec in H. vm_compute in H. discriminate. }
  split; [reflexivity|]. split; [exact Hno|].
  intro H. apply tree_sorted_subs in H. apply Hno, H.
Qed.

(** C1 (amended): in every tree the walk returns, the children of a node
    are the trees built for the retained entries of its directory, in the
    order [readdir] listed them; no sort takes place, so the sequence is
    ascending by path exactly when the joined paths of the retained
    entries are listed in ascending order. *)
Theorem C1_walk_children_follow_readdir_order (root : string) (fs : FsNode) (depth : Z) :
  sub_files_ (build root fs depth) =
    map (fun e => build (join_path root (fst e)) (snd e) (depth - 1)) (retained fs depth) /\
  map path_ (sub_files_ (build root fs depth)) =
    map (fun e => join_path root (fst e)) (retained fs depth) /\
  (subs_sorted (sub_files_ (build root fs depth)) <->
   paths_sorted (map (fun e => join_path root (fst e)) (retained fs depth))).
Proof.
  assert (Hpaths : map path_ (sub_files_ (build root fs depth)) =
                   map (fun e => join_path root (fst e)) (retained fs depth)).
  { rewrite build_sub_files, map_map. apply map_ext.
    intro e. unfold child_of. apply build_path. }
  split; [apply build_sub_files|]. split; [exact Hpaths|].
  rewrite subs_sorted_paths, Hpaths. reflexivity.
Qed.

(** ** Retention depth and aggregation *)

(** C6: recursion and aggregation do not depend on the retention depth.
    The size of a built tree is its own size plus the size of the tree
    built below every listed entry, at any depth, and equals the total
    of the whole tree below the path; the depth only decides whether
    those nodes are appended.  At depth 0 the root has no children and
    still the full size. *)
Theorem C6_depth_gates_retention_only (root : string) (fs : FsNode) (depth : Z) :
  size_ (build root fs depth) =
    add_sizes (size_ (set_path FileInfo0 root (lstat fs)))
              (map (child_of root depth) (listing fs)) /\
  sub_files_ (build root fs depth) =
    (if depth >? 0 then map (child_of root depth) (listing fs) else []) /\
  size_ (build root fs depth) = to_size_t (fs_total fs) /\
  sub_files_ (build root fs 0) = [] /\
  size_ (build root fs 0) = to_size_t (fs_total fs) /\
  build "/r" fs_deep 0 = mkFileInfo 49152 "/r" [] FILE_TYPE_DIRECTORY /\
  size_ (build "/r" fs_deep 5) = 49152.
Proof.
  split; [apply build_size_children|].
  split; [rewrite build_sub_files; unfold retained; destruct (depth >? 0); reflexivity|].
  split; [apply build_size|].
  split; [rewrite build_sub_files; reflexivity|].
  split; [apply build_size|].
  split; reflexivity.
Qed.

(** ** Claims on the diff engine *)

(** C3: for two directories with [newer] larger than [older], the parent
    line is left out exactly when the change counter is 1 and the last
    growth amount equals the total growth; otherwise it is the last line
    and names the node's path and the total growth.  Two children that
    both changed in size under a grown parent give the lines of the two
    children and then the parent line; with 50 each under a parent grown
    by 100 these are two child lines and the parent line. *)
Theorem C3_parent_line_unless_single_child :
  (forall newer older,
      size_ older < size_ newer ->
      type_ newer = FILE_TYPE_DIRECTORY ->
      type_ older = FILE_TYPE_DIRECTORY ->
      let m := merge_loop diff (sub_files_ newer) (sub_files_ older) 0 0 in
      let total_inc := size_ newer - size_ older in
      (change_count m = 1 /\ last_inc m = total_inc ->
       diff newer older = lines m) /\
      (~ (change_count m = 1 /\ last_inc m = total_inc) ->
       diff newer older = lines m ++ [RInc (path_ newer) total_inc])) /\
  (forall p p' s s' a b a' b',
      s' < s ->
      path_ a = path_ a' -> path_ b = path_ b' ->
      size_ a <> size_ a' -> size_ b <> size_ b' ->
      diff (directory p s [a; b]) (directory p' s' [a'; b']) =
      diff a a' ++ diff b b' ++ [RInc p (s - s')]) /\
  diff two_grown_newer two_grown_older =
    [RInc "/r/a" 50; RInc "/r/b" 50; RInc "/r" 100].
Proof.
  split; [|split; [|reflexivity]].
  2:{ intros p p' s s' a b a' b' Hgrow Ha Hb Hsa Hsb.
      unfold directory. rewrite diff_unfold. cbn [size_ type_ sub_files_].
      destruct (Z.leb_spec s s') as [Hle|_]; [lia|].
      cbn [Z.eqb FILE_TYPE_DIRECTORY Pos.eqb andb merge_loop].
      rewrite Ha, Hb, !String.eqb_refl.
      apply Z.eqb_neq in Hsa, Hsb. rewrite Hsa, Hsb.
      cbn [negb emit tail_loop lines change_count last_inc Z.add Pos.add Pos.succ
                Z.eqb Pos.eqb andb app].
      rewrite app_nil_r, <- app_assoc. reflexivity. }
  intros [s p l t] older Hgrow Hn Ho. cbn [size_ type_ sub_files_ path_] in *.
  rewrite diff_unfold.
  destruct (Z.leb_spec s (size_ older)) as [Hle|_]; [lia|].
  rewrite Hn, Ho. cbn [Z.eqb FILE_TYPE_DIRECTORY Pos.eqb andb].
  cbv zeta.
  destruct (Z.eqb_spec (change_count (merge_loop diff l (sub_files_ older) 0 0)) 1) as [Hc|Hc];
    destruct (Z.eqb_spec (last_inc (merge_loop diff l (sub_files_ older) 0 0))
                         (s - size_ older)) as [Hi|Hi]; cbn [andb];
    split; intro H; try reflexivity; tauto.
Qed.

Lemma C3_parent_line_unless_single_child_witness :
  size_ new_inner_older < size_ new_last_newer /\
  type_ new_last_newer = FILE_TYPE_DIRECTORY /\
  type_ new_inner_older = FILE_TYPE_DIRECTORY /\
  diff new_last_newer new_inner_older = [RNew "/r/b" 50].
Proof.
  split; [reflexivity|]. split; [reflexivity|]. split; [reflexivity|].
  apply (proj1 C3_parent_line_unless_single_child new_last_newer new_inner_older);
    try reflexivity.
  split; reflexivity.
Defined.

(** C4 (the code departs from it): once the older children are used up,
    the rest of the newer children are reported as new with their full
    size, but the change counter is not touched and the last growth
    amount is overwritten whatever the size; the older children left
    when the newer ones are used up produce no line.  So a new child at
    the end is not handled like a new child met inside the merge: for one
    new child of size 50 under a parent grown by 50 the parent line is
    logged as well, and for the same child met inside the merge it is
    not. *)
Theorem C4_trailing_new_children_are_not_counted :
  (forall ls cc li,
      let m := merge_loop diff ls [] cc li in
      lines m = map (fun lfile => RNew (path_ lfile) (size_ lfile)) ls /\
      change_count m = cc /\
      last_inc m = fold_left (fun _ lfile => size_ lfile) ls li) /\
  (forall rs cc li, merge_loop diff [] rs cc li = mkMerge [] cc li) /\
  merge_loop diff (sub_files_ new_last_newer) (sub_files_ new_last_older) 0 0 =
    mkMerge [RNew "/r/b" 50] 0 50 /\
  diff new_last_newer new_last_older = [RNew "/r/b" 50; RInc "/r" 50] /\
  merge_loop diff (sub_files_ new_last_newer) (sub_files_ new_inner_older) 0 0 =
    mkMerge [RNew "/r/b" 50] 1 50 /\
  diff new_last_newer new_inner_older = [RNew "/r/b" 50] /\
  diff empty_last_newer empty_last_older =
    [RInc "/r/a" 50; RNew "/r/z" 0; RInc "/r" 50] /\
  diff empty_last_newer empty_inner_older = [RInc "/r/a" 50; RNew "/r/z" 0] /\
  diff gone_last_newer gone_last_older = [RInc "/r/a" 50; RInc "/r" 30].
Proof.
  split.
  { intros ls cc li. cbv zeta. rewrite merge_loop_older_done. apply tail_loop_spec. }
  split; [intros; apply merge_loop_newer_done|].
  repeat split.
Qed.

(** C5: when [newer] is not larger than [older], [diff] logs nothing,
    whatever the two nodes hold below them; a tree compared with itself
    gives no line. *)
Theorem C5_no_growth_no_lines :
  (forall newer older, size_ newer <= size_ older -> diff newer older = []) /\
  (forall T, diff T T = []).
Proof.
  split.
  - apply diff_no_growth.
  - intro T. apply diff_no_growth. apply Z.le_refl.
Qed.

Lemma C5_no_growth_no_lines_witness :
  size_ two_grown_older <= size_ two_grown_newer /\
  diff two_grown_older two_grown_newer = [].
Proof.
  split; [discriminate|].
  apply (proj1 C5_no_growth_no_lines two_grown_older two_grown_newer). discriminate.
Defined.

(** ** Claims on the codec *)

(** C7: a deserialized tree has its children ascending by path, at the
    root and at every node below, in whatever order the document lists
    them. *)
Theorem C7_deserialized_children_sorted (doc : JValue) (n : FileInfo) :
  deserialize doc = Done true n ->
  subs_sorted (sub_files_ n) /\ tree_sorted n.
Proof.
  intro H.
  assert (Hn : tree_sorted n).
  { eapply from_json_tree_sorted; [apply tree_sorted_FileInfo0|exact H]. }
  split; [apply tree_sorted_subs; exact Hn|exact Hn].
Qed.

Lemma C7_deserialized_children_sorted_witness :
  deserialize doc_reversed =
    Done true (mkFileInfo 0 "/r" [mkFileInfo 2 "/r/a" [] 0; mkFileInfo 1 "/r/b" [] 0] 0) /\
  subs_sorted [mkFileInfo 2 "/r/a" [] 0; mkFileInfo 1 "/r/b" [] 0].
Proof.
  assert (E : deserialize doc_reversed =
              Done true (mkFileInfo 0 "/r"
                           [mkFileInfo 2 "/r/a" [] 0; mkFileInfo 1 "/r/b" [] 0] 0))
    by reflexivity.
  split; [exact E|].
  exact (proj1 (C7_deserialized_children_sorted _ _ E)).
Defined.

Lemma from_json_false (v : JValue) (this : FileInfo) :
  (exists this', from_json v this = Done false this') <-> IsObject v = false.
Proof.
  destruct v; simpl; split; intro H; try reflexivity; try (eexists; reflexivity);
    try discriminate.
  destruct H as [this' H]. apply members_loop_true in H. discriminate.
Qed.

Lemma from_json_false_same (v : JValue) (this this' : FileInfo) :
  from_json v this = Done false this' -> this' = this.
Proof.
  destruct v; simpl; intro H; try congruence.
  apply members_loop_true in H. discriminate.
Qed.

Lemma subs_loop_parsed (es : list JValue) :
  Forall (fun e => from_json e FileInfo0 <> Crash) es ->
  forall subs, subs_loop from_json es subs = Some (subs ++ parsed_subs es).
Proof.
  induction 1 as [|e es He Hes IH]; intro subs; cbn [subs_loop parsed_subs flat_map].
  - rewrite app_nil_r. reflexivity.
  - fold (parsed_subs es).
    destruct (from_json e FileInfo0) as [[|] sub|]; [| |congruence].
    + rewrite IH, <- app_assoc. reflexivity.
    + apply IH.
Qed.

(** C9: [to_json] writes the size modulo 2^32 and [from_json] reads an
    [unsigned] back, so a tree written and read again has its size
    modulo 2^32: the size survives exactly when it is below 2^32. *)
Theorem C9_size_survives_iff_below_2_32 (f : FileInfo) :
  0 <= size_ f < SIZE_T_MOD ->
  In ("size", JInt (size_ f mod 2 ^ 32)) (members_of (to_json f)) /\
  exists n,
    deserialize (to_json f) = Done true n /\
    size_ n = size_ f mod 2 ^ 32 /\
    (size_ n = size_ f <-> size_ f < 2 ^ 32).
Proof.
  intros [H0 H1]. split.
  { destruct f as [s p l t]. cbn [to_json members_of size_]. right. left. reflexivity. }
  exists (reloaded f). split; [apply from_json_to_json|].
  destruct f as [s p l t]. cbn [reloaded size_] in *. unfold to_unsigned, UINT_MOD.
  split; [reflexivity|].
  pose proof (Z.mod_pos_bound s (2 ^ 32) eq_refl) as Hb.
  split.
  - intro E. rewrite <- E. apply Hb.
  - intro Hs. apply Z.mod_small. split; assumption.
Qed.

Lemma C9_size_survives_iff_below_2_32_witness :
  0 <= size_ (reg_file "/r/big" (2 ^ 32 + 512)) < SIZE_T_MOD /\
  exists n,
    deserialize (to_json (reg_file "/r/big" (2 ^ 32 + 512))) = Done true n /\
    size_ n = 512.
Proof.
  assert (H : 0 <= size_ (reg_file "/r/big" (2 ^ 32 + 512)) < SIZE_T_MOD)
    by (split; [discriminate|reflexivity]).
  split; [exact H|].
  destruct (proj2 (C9_size_survives_iff_below_2_32 _ H)) as (n & Hn & Hsize & _).
  exists n. split; [exact Hn|exact Hsize].
Defined.

(** ** Members of the wrong kind *)

Lemma GetString_IsString (v : JValue) :
  IsString v = match GetString v with Some _ => true | None => false end.
Proof. destruct v; reflexivity. Qed.

Lemma GetUint_IsUint (v : JValue) :
  IsUint v = match GetUint v with Some _ => true | None => false end.
Proof.
  destruct v; try reflexivity. simpl.
  destruct ((0 <=? z) && (z <? UINT_MOD)); reflexivity.
Qed.

Lemma subs_loop_dies (es : list JValue) :
  Forall (fun e => forall this, from_json e this = Crash <-> well_typed e = false) es ->
  forall subs, subs_loop from_json es subs = None <-> forallb well_typed es = false.
Proof.
  induction 1 as [|e es He Hes IH]; intro subs; cbn [subs_loop forallb].
  - split; discriminate.
  - specialize (He FileInfo0).
    destruct (from_json e FileInfo0) as [[|] sub|].
    + destruct (well_typed e); [apply IH|].
      destruct He as [_ He]. discriminate (He eq_refl).
    + destruct (well_typed e); [apply IH|].
      destruct He as [_ He]. discriminate (He eq_refl).
    + destruct He as [He _]. rewrite (He eq_refl). split; reflexivity.
Qed.

Lemma members_loop_dies (ms : list (string * JValue)) :
  Forall (fun m => match snd m with
                   | JArray es =>
                       Forall (fun e => forall this,
                                   from_json e this = Crash <-> well_typed e = false) es
                   | _ => True
                   end) ms ->
  forall this,
    members_loop from_json ms this = Crash <-> forallb (member_typed well_typed) ms = false.
Proof.
  induction 1 as [|[name value] ms Hm Hms IH]; intro this;
    cbn [members_loop forallb member_typed snd] in *.
  - split; discriminate.
  - destruct (name_is "path" name).
    { rewrite GetString_IsString. destruct (GetString value); [apply IH|].
      split; reflexivity. }
    destruct (name_is "size" name).
    { rewrite GetUint_IsUint. destruct (GetUint value); [apply IH|].
      split; reflexivity. }
    destruct (name_is "type" name).
    { rewrite GetUint_IsUint. destruct (GetUint value); [apply IH|].
      split; reflexivity. }
    destruct (name_is "subs" name); [|apply IH].
    destruct value; try apply IH.
    pose proof (subs_loop_dies _ Hm (sub_files_ this)) as Hes.
    destruct (subs_loop from_json elements (sub_files_ this)).
    + destruct (forallb well_typed elements); [apply IH|].
      destruct Hes as [_ Hes]. discriminate (Hes eq_refl).
    + destruct Hes as [Hes _]. rewrite (Hes eq_refl). split; reflexivity.
Qed.

(** [from_json] dies exactly on a document with a member of the wrong
    kind. *)
Lemma from_json_dies (v : JValue) :
  forall this, from_json v this = Crash <-> well_typed v = false.
Proof.
  induction v using JValue_ind'; intro this; cbn [from_json well_typed];
    try (split; discriminate).
  apply members_loop_dies.
  eapply Forall_impl; [|exact H].
  intros [name value] [_ Hbelow]. cbn [snd] in *.
  destruct value; try exact I. exact Hbelow.
Qed.

(** An object whose members have the kinds the accessors assert always
    deserializes. *)
Lemma from_json_well_typed_object (ms : list (string * JValue)) (this : FileInfo) :
  well_typed (JObject ms) = true ->
  exists n, from_json (JObject ms) this = Done true n.
Proof.
  intro H. destruct (from_json (JObject ms) this) as [ret n|] eqn:E.
  - exists n. cbn [from_json] in E. rewrite (members_loop_true _ _ _ _ _ E). reflexivity.
  - apply from_json_dies in E. congruence.
Qed.

(** A type code is stored without a look at the enum. *)
Lemma from_json_type_unchecked (code : Z) :
  0 <= code <= INT_MAX ->
  deserialize (JObject [("type", JInt code)]) = Done true (set_type FileInfo0 code).
Proof.
  intros [H0 H1]. unfold deserialize. cbn [from_json].
  rewrite members_loop_type, GetUint_fits.
  - unfold to_int. apply Z.leb_le in H1. rewrite H1. reflexivity.
  - unfold INT_MAX, UINT_MOD in *. lia.
Qed.

(** ** Member order and unknown members *)

Lemma members_loop_step (F : JValue -> FileInfo -> Run) (m : string * JValue)
      (ms : list (string * JValue)) (this : FileInfo) :
  members_loop F (m :: ms) this =
  match member_step F m this with
  | Some this' => members_loop F ms this'
  | None => Crash
  end.
Proof.
  destruct m as [name value]. cbn [members_loop member_step]. unfold field_of.
  destruct (name_is "path" name); [destruct (GetString value); reflexivity|].
  destruct (name_is "size" name); [destruct (GetUint value); reflexivity|].
  destruct (name_is "type" name); [destruct (GetUint value); reflexivity|].
  destruct (name_is "subs" name); [|reflexivity].
  destruct value; try reflexivity.
  destruct (subs_loop F elements (sub_files_ this)); reflexivity.
Qed.

(** Members with other names leave no trace. *)
Lemma members_loop_known (F : JValue -> FileInfo -> Run) (ms : list (string * JValue)) :
  forall this, members_loop F ms this = members_loop F (filter known ms) this.
Proof.
  induction ms as [|m ms IH]; intro this; [reflexivity|].
  cbn [filter]. destruct (known m) eqn:E.
  - rewrite !members_loop_step. destruct (member_step F m this); [apply IH|reflexivity].
  - rewrite members_loop_step.
    destruct m as [name value]. unfold known in E. cbn [fst member_step] in *.
    destruct (field_of name); [discriminate|]. apply IH.
Qed.

(** Two turns on different fields can be taken in either order. *)
Lemma member_step_swap (F : JValue -> FileInfo -> Run) (x y : string * JValue)
      (this : FileInfo) :
  field_of (fst x) <> field_of (fst y) ->
  match member_step F x this with
  | Some this' => member_step F y this'
  | None => None
  end =
  match member_step F y this with
  | Some this' => member_step F x this'
  | None => None
  end.
Proof.
  destruct x as [nx vx], y as [ny vy]. cbn [fst member_step]. intro Hne.
  destruct (field_of nx) as [[| | |]|], (field_of ny) as [[| | |]|];
    try congruence;
    repeat match goal with
           | |- context [GetString ?v] => destruct (GetString v)
           | |- context [GetUint ?v] => destruct (GetUint v)
           | |- context [match ?v with JArray _ => _ | _ => _ end] => destruct v
           end;
    cbn [option_map sub_files_ set_path_ set_size set_type]; try reflexivity;
    repeat match goal with
           | |- context [subs_loop F ?es ?l] => destruct (subs_loop F es l)
           end;
    cbn [option_map]; reflexivity.
Qed.

Lemma members_loop_perm (F : JValue -> FileInfo -> Run)
      (ms ms' : list (string * JValue)) :
  Permutation ms ms' ->
  NoDup (map (fun m => field_of (fst m)) ms) ->
  forall this, members_loop F ms this = members_loop F ms' this.
Proof.
  induction 1 as [|m ms ms' Hperm IH|x y ms|ms ms' ms'' H1 IH1 H2 IH2];
    intros Hnodup this.
  - reflexivity.
  - rewrite !members_loop_step. inversion Hnodup; subst.
    destruct (member_step F m this); [apply IH; assumption|reflexivity].
  - rewrite !members_loop_step.
    assert (Hne : field_of (fst y) <> field_of (fst x)).
    { inversion Hnodup as [|? ? Hin _]; subst. intro E. apply Hin. left. symmetry. exact E. }
    pose proof (member_step_swap F y x this Hne) as Hswap.
    destruct (member_step F y this) as [this1|], (member_step F x this) as [this2|];
      rewrite ?members_loop_step.
    + rewrite Hswap. reflexivity.
    + rewrite Hswap. reflexivity.
    + rewrite <- Hswap. reflexivity.
    + reflexivity.
  - rewrite IH1 by exact Hnodup. apply IH2.
    eapply Permutation_NoDup; [|exact Hnodup].
    apply Permutation_map. exact H1.
Qed.

(** A document whose known members are those of another document, each
    name at most once, in any order and among any other members, reads
    like that document. *)
Lemma from_json_order_insensitive (ms ms' : list (string * JValue)) (this : FileInfo) :
  NoDup (map (fun m => field_of (fst m)) ms) ->
  Permutation ms (filter known ms') ->
  from_json (JObject ms') this = from_json (JObject ms) this.
Proof.
  intros Hnodup Hperm. cbn [from_json].
  rewrite (members_loop_known _ ms'). symmetry.
  apply members_loop_perm; assumption.
Qed.

Lemma to_json_fields_NoDup (f : FileInfo) :
  NoDup (map (fun m => field_of (fst m)) (members_of (to_json f))).
Proof.
  destruct f as [s p [|x l] t]; cbn; repeat constructor;
    cbn; intro H; repeat destruct H as [H|H]; try discriminate; exact H.
Qed.

(** The round trip of a tree the codec reproduces exactly, with the
    members of the root in any order and among unknown members. *)
Lemma round_trip_scrambled (f : FileInfo) (ms' : list (string * JValue)) :
  codec_exact f ->
  Permutation (members_of (to_json f)) (filter known ms') ->
  deserialize (JObject ms') = Done true f.
Proof.
  intros Hf Hperm. unfold deserialize.
  rewrite (from_json_order_insensitive (members_of (to_json f)) ms')
    by (try apply to_json_fields_NoDup; exact Hperm).
  replace (JObject (members_of (to_json f))) with (to_json f) by (destruct f; reflexivity).
  apply round_trip_exact. exact Hf.
Qed.

(** Elements that read alike give arrays that read alike. *)
Lemma subs_loop_ext (F : JValue -> FileInfo -> Run) (es es' : list JValue) :
  Forall2 (fun e e' => F e FileInfo0 = F e' FileInfo0) es es' ->
  forall subs, subs_loop F es subs = subs_loop F es' subs.
Proof.
  induction 1 as [|e e' es es' He Hes IH]; intro subs; cbn [subs_loop]; [reflexivity|].
  rewrite He. destruct (F e' FileInfo0) as [[|] sub|]; auto.
Qed.

Lemma from_json_subs_ext (pre post : list (string * JValue)) (es es' : list JValue)
      (this : FileInfo) :
  Forall2 (fun e e' => from_json e FileInfo0 = from_json e' FileInfo0) es es' ->
  from_json (JObject (pre ++ ("subs", JArray es) :: post)) this =
  from_json (JObject (pre ++ ("subs", JArray es') :: post)) this.
Proof.
  intro H. cbn [from_json]. revert this.
  induction pre as [|m pre IH]; intro this; cbn [app].
  - rewrite !members_loop_subs, (subs_loop_ext _ _ _ H). reflexivity.
  - rewrite !members_loop_step. destruct (member_step from_json m this); auto.
Qed.

(** C2 (the code departs from it): a tree written and read back has
    every size reduced modulo 2^32.  The tree built for a directory with
    one file of 4 GiB comes back with size 0 for the file and 4096 for
    the directory. *)
Theorem C2_round_trip_reduces_sizes :
  (forall f, deserialize (to_json f) = Done true (reloaded f)) /\
  build "/r" fs_big 5 = directory "/r" 4294971392 [reg_file "/r/big" 4294967296] /\
  deserialize (to_json (build "/r" fs_big 5)) =
    Done true (directory "/r" 4096 [reg_file "/r/big" 0]).
Proof.
  split; [apply from_json_to_json|]. split; reflexivity.
Qed.

(** C10 (the code departs from it): an object with a member of the wrong
    kind does not deserialize, the accessor's assertion fails: a [path]
    that is not a string, a [size] or [type] that is not an [unsigned].
    A [subs] that is not an array is skipped.  The empty object and
    objects without [path], [size] or [type] deserialize with the
    defaults of the constructor, and a type code outside the enum is
    taken as it is. *)
Theorem C10_member_of_wrong_kind_dies :
  deserialize (JObject [("path", JInt 5)]) = Crash /\
  deserialize (JObject [("size", JString "12")]) = Crash /\
  deserialize (JObject [("size", JInt (-1))]) = Crash /\
  deserialize (JObject [("type", JInt 4294967296)]) = Crash /\
  deserialize (JObject [("subs", JArray [JObject [("path", JNull)]])]) = Crash /\
  deserialize (JObject [("subs", JInt 5)]) = Done true FileInfo0 /\
  deserialize (JObject []) = Done true FileInfo0 /\
  deserialize (JObject [("type", JInt 7)]) = Done true (set_type FileInfo0 7) /\
  (forall ms this,
      (exists n, from_json (JObject ms) this = Done true n) <->
      well_typed (JObject ms) = true).
Proof.
  repeat (split; [reflexivity|]).
  intros ms this. split.
  - intros [n Hn]. destruct (well_typed (JObject ms)) eqn:E; [reflexivity|].
    apply (from_json_dies _ this) in E. congruence.
  - apply from_json_well_typed_object.
Qed.

(** What an array adds to the children, element by element. *)
Lemma parsed_subs_cons (e : JValue) (es : list JValue) :
  parsed_subs (e :: es) =
  match from_json e FileInfo0 with
  | Done true sub => sub :: parsed_subs es
  | _ => parsed_subs es
  end.
Proof.
  unfold parsed_subs. cbn [flat_map].
  destruct (from_json e FileInfo0) as [[|] sub|]; reflexivity.
Qed.

(** A [subs] array is read as a whole or not at all. *)
Lemma from_json_subs_array (es : list JValue) (ms : list (string * JValue))
      (this : FileInfo) :
  from_json (JObject (("subs", JArray es) :: ms)) this =
  if forallb well_typed es
  then from_json (JObject ms)
         (sort_subs (set_sub_files this (sub_files_ this ++ parsed_subs es)))
  else Crash.
Proof.
  cbn [from_json]. rewrite members_loop_subs.
  assert (Hes : Forall (fun e => forall this, from_json e this = Crash <->
                                              well_typed e = false) es).
  { apply Forall_forall. intros e _. apply from_json_dies. }
  destruct (forallb well_typed es) eqn:E.
  - rewrite subs_loop_parsed; [reflexivity|].
    apply Forall_forall. intros e He Hc.
    apply (proj1 (forallb_forall _ _) E) in He.
    apply from_json_dies in Hc. congruence.
  - rewrite (proj2 (subs_loop_dies es Hes (sub_files_ this)) E). reflexivity.
Qed.

(** C8 (the code departs from it): reading a snapshot file returns
    [false] exactly when no document is obtained from it (it cannot be
    opened, or its content does not parse) or the root of the document is
    not an object, and then the receiver is left as it was.  Inside a
    [subs] array an element that is not an object is dropped and the
    elements around it are kept; an object whose members have the kinds
    the accessors assert is read by [from_json] and kept.  But an element
    that is an object with a member of the wrong kind, at any place in
    the array, is not dropped: [from_json] dies on it, and with it the
    loop over the array and the load of the whole document, so the
    elements before and after it are lost as well. *)
Theorem C8_wrong_kind_element_kills_the_load :
  (forall file this,
      (exists this', from_json_file file this = Done false this') <->
      ((forall doc, file <> Some (Document doc)) \/
       exists doc, file = Some (Document doc) /\ IsObject doc = false)) /\
  (forall file this this', from_json_file file this = Done false this' -> this' = this) /\
  (forall es ms this,
      from_json (JObject (("subs", JArray es) :: ms)) this =
      if forallb well_typed es
      then from_json (JObject ms)
             (sort_subs (set_sub_files this (sub_files_ this ++ parsed_subs es)))
      else Crash) /\
  (forall e es, IsObject e = false -> parsed_subs (e :: es) = parsed_subs es) /\
  (forall e es,
      IsObject e = true -> well_typed e = true ->
      exists sub, from_json e FileInfo0 = Done true sub /\
                  parsed_subs (e :: es) = sub :: parsed_subs es) /\
  (forall e es ms this,
      In e es -> well_typed e = false ->
      IsObject e = true /\
      from_json (JObject (("subs", JArray es) :: ms)) this = Crash) /\
  deserialize
    (JObject [("subs", JArray [JNull; JObject [("path", JString "b")]; JInt 3;
                               JObject [("path", JString "a")]])]) =
    Done true (mkFileInfo 0 "" [mkFileInfo 0 "a" [] 0; mkFileInfo 0 "b" [] 0] 0) /\
  deserialize
    (JObject [("subs", JArray [JObject [("path", JString "b")];
                               JObject [("path", JInt 5)];
                               JObject [("path", JString "a")]])]) = Crash /\
  from_json_file
    (Some (Document
       (JObject [("subs", JArray [JObject [("path", JInt 5)];
                                  JObject [("path", JString "a")]])])))
    FileInfo0 = Crash.
Proof.
  split.
  { intros file this. destruct file as [[|doc]|]; cbn [from_json_file].
    - split; [intros _; left; discriminate|intros _; eexists; reflexivity].
    - rewrite from_json_false. split.
      + intro H. right. exists doc. split; [reflexivity|exact H].
      + intros [H|(doc' & E & H)]; [destruct (H doc eq_refl)|].
        injection E as ->. exact H.
    - split; [intros _; left; discriminate|intros _; eexists; reflexivity]. }
  split.
  { intros file this this'. destruct file as [[|doc]|]; cbn [from_json_file].
    - congruence.
    - apply from_json_false_same.
    - congruence. }
  split; [exact from_json_subs_array|].
  split.
  { intros e es He. rewrite parsed_subs_cons.
    apply (from_json_false e FileInfo0) in He. destruct He as [this' ->].
    reflexivity. }
  split.
  { intros e es He Ht. destruct e; try discriminate He.
    destruct (from_json_well_typed_object members FileInfo0 Ht) as [sub Hsub].
    exists sub. split; [exact Hsub|]. rewrite parsed_subs_cons, Hsub. reflexivity. }
  split.
  { intros e es ms this Hin Ht. split.
    - destruct e; try discriminate Ht. reflexivity.
    - rewrite from_json_subs_array.
      replace (forallb well_typed es) with false; [reflexivity|].
      symmetry. apply not_true_is_false. intro Hall.
      apply (proj1 (forallb_forall _ _) Hall) in Hin. congruence. }
  repeat split.
Qed.

Lemma C8_wrong_kind_element_kills_the_load_witness :
  In (JObject [("path", JInt 5)])
     [JObject [("path", JString "b")]; JObject [("path", JInt 5)]] /\
  well_typed (JObject [("path", JInt 5)]) = false /\
  from_json
    (JObject [("subs", JArray [JObject [("path", JString "b")];
                               JObject [("path", JInt 5)]])])
    FileInfo0 = Crash.
Proof.
  assert (Hin : In (JObject [("path", JInt 5)])
                   [JObject [("path", JString "b")]; JObject [("path", JInt 5)]])
    by (right; left; reflexivity).
  assert (Ht : well_typed (JObject [("path", JInt 5)]) = false) by reflexivity.
  split; [exact Hin|]. split; [exact Ht|].
  destruct C8_wrong_kind_element_kills_the_load as (_ & _ & _ & _ & _ & H & _).
  exact (proj2 (H _ _ [] FileInfo0 Hin Ht)).
Defined.

(** * Further properties *)

(** ** File names *)

Lemma string_app_assoc (a b c : string) : ((a ++ b) ++ c = a ++ (b ++ c))%string.
Proof. induction a as [|x a IH]; simpl; congruence. Qed.

Lemma string_length_app (a b : string) :
  String.length (a ++ b) = (String.length a + String.length b)%nat.
Proof. induction a as [|x a IH]; simpl; congruence. Qed.

Lemma no_sep_app (a b : string) : no_sep (a ++ b) = no_sep a && no_sep b.
Proof.
  induction a as [|c a IH]; simpl; [reflexivity|].
  rewrite IH, andb_assoc. reflexivity.
Qed.

Lemma flatten_path_no_sep (path : string) : no_sep (flatten_path path) = true.
Proof.
  induction path as [|c r IH]; simpl; [reflexivity|].
  rewrite IH, andb_true_r.
  destruct (Ascii.eqb c SEP) eqn:E; [reflexivity|]. rewrite E. reflexivity.
Qed.

Lemma flatten_path_length (path : string) :
  String.length (flatten_path path) = String.length path.
Proof. induction path as [|c r IH]; simpl; congruence. Qed.

Lemma flatten_path_fixed (path : string) :
  flatten_path path = path <-> no_sep path = true.
Proof.
  split.
  - intro E. rewrite <- E. apply flatten_path_no_sep.
  - induction path as [|c r IH]; simpl; [reflexivity|].
    rewrite andb_true_iff, negb_true_iff. intros [Hc Hr].
    rewrite Hc, (IH Hr). reflexivity.
Qed.

Lemma flatten_path_app (a b : string) :
  flatten_path (a ++ b) = (flatten_path a ++ flatten_path b)%string.
Proof. induction a as [|c a IH]; simpl; congruence. Qed.

(** X1: [flatten_path] keeps the length, leaves no separator, changes
    nothing else (a path without separator is returned as it is, and
    flattening twice is flattening once), and cannot tell a separator
    from an underscore. *)
Theorem X1_flatten_path_replaces_separators (path : string) :
  String.length (flatten_path path) = String.length path /\
  no_sep (flatten_path path) = true /\
  (flatten_path path = path <-> no_sep path = true) /\
  flatten_path (flatten_path path) = flatten_path path /\
  (forall a b, flatten_path (a ++ String SEP b) = flatten_path (a ++ String "_" b)).
Proof.
  split; [apply flatten_path_length|].
  split; [apply flatten_path_no_sep|].
  split; [apply flatten_path_fixed|].
  split; [apply flatten_path_fixed, flatten_path_no_sep|].
  intros a b. rewrite !flatten_path_app. reflexivity.
Qed.

Lemma append_inj_l (p a b : string) : (p ++ a)%string = (p ++ b)%string -> a = b.
Proof. induction p as [|c p IH]; simpl; intro H; [exact H|]. injection H as H. auto. Qed.

Lemma prefix_append (p s : string) : String.prefix p (p ++ s) = true.
Proof.
  induction p as [|c p IH]; simpl.
  - destruct s; reflexivity.
  - destruct (ascii_dec c c) as [_|N]; [exact IH|destruct (N eq_refl)].
Qed.

Lemma join_path_cases (prefix postfix : string) :
  join_path prefix postfix = (prefix ++ postfix)%string \/
  join_path prefix postfix = (prefix ++ String SEP postfix)%string.
Proof.
  unfold join_path. destruct (last_char prefix) as [c|]; [destruct (Ascii.eqb c SEP)|]; auto.
Qed.

Lemma join_path_inj (prefix a b : string) :
  join_path prefix a = join_path prefix b -> a = b.
Proof.
  unfold join_path. destruct (last_char prefix) as [c|]; [destruct (Ascii.eqb c SEP)|];
    intro H; apply append_inj_l in H; congruence.
Qed.

Lemma join_path_prefix (prefix postfix : string) :
  String.prefix prefix (join_path prefix postfix) = true.
Proof.
  destruct (join_path_cases prefix postfix) as [E|E]; rewrite E; apply prefix_append.
Qed.

Lemma last_char_app_sep (p : string) : last_char (p ++ String SEP "") = Some SEP.
Proof.
  induction p as [|c p IH]; [reflexivity|].
  simpl. rewrite IH. destruct (p ++ String SEP "")%string eqn:E; [|reflexivity].
  destruct p; discriminate.
Qed.

(** X2: [join_path] extends the prefix: the prefix is a prefix of the
    result, different names give different paths, a prefix that ends in
    the separator gets none added, and an empty prefix gives a path that
    starts at the root. *)
Theorem X2_join_path_extends_prefix (prefix : string) :
  (forall name, String.prefix prefix (join_path prefix name) = true) /\
  (forall a b, join_path prefix a = join_path prefix b <-> a = b) /\
  (forall name, join_path (prefix ++ String SEP "") name
                = (prefix ++ String SEP name)%string) /\
  (forall name, join_path "" name = String SEP name).
Proof.
  split; [intro; apply join_path_prefix|].
  split; [intros a b; split; [apply join_path_inj|congruence]|].
  split; [|reflexivity].
  intro name. unfold join_path. rewrite last_char_app_sep.
  change (Ascii.eqb SEP SEP) with true. cbv iota.
  induction prefix as [|c p IH]; simpl; [reflexivity|]. f_equal. exact IH.
Qed.

Lemma string_of_uint_no_sep (d : Decimal.uint) :
  no_sep (NilEmpty.string_of_uint d) = true.
Proof. induction d; simpl; auto. Qed.

Lemma decimal_no_sep (n : Z) : no_sep (decimal n) = true.
Proof.
  unfold decimal, NilZero.string_of_uint.
  destruct (N.to_uint (Z.to_N n)); try reflexivity; apply string_of_uint_no_sep.
Qed.

Lemma zeros_no_sep (n : nat) : no_sep (zeros n) = true.
Proof. induction n; simpl; auto. Qed.

Lemma fmt_0d_no_sep (width : nat) (z : Z) : no_sep (fmt_0d width z) = true.
Proof.
  unfold fmt_0d. destruct (z <? 0); cbn [no_sep];
    rewrite no_sep_app, zeros_no_sep, decimal_no_sep; reflexivity.
Qed.

Lemma fmt_0zu_no_sep (width : nat) (n : Z) : no_sep (fmt_0zu width n) = true.
Proof. unfold fmt_0zu. rewrite no_sep_app, zeros_no_sep, decimal_no_sep. reflexivity. Qed.

Lemma substring_no_sep (s : string) :
  no_sep s = true -> forall n m, no_sep (substring n m s) = true.
Proof.
  induction s as [|c s IH]; intros H n m.
  - destruct n, m; reflexivity.
  - simpl in H. apply andb_true_iff in H. destruct H as [Hc Hs].
    destruct n as [|n]; [destruct m as [|m]|]; simpl; auto.
    rewrite Hc. simpl. auto.
Qed.

Lemma time_to_str_no_sep (now : Clock) : no_sep (time_to_str now) = true.
Proof.
  unfold time_to_str, snprintf. apply substring_no_sep.
  rewrite !no_sep_app, !fmt_0d_no_sep, fmt_0zu_no_sep. reflexivity.
Qed.

(** X3: the name of a snapshot file never holds a separator, whatever
    the root path and the time: the file is created in the working
    directory.  The name is [dirs_], the flattened root, the time and
    [.json]. *)
Theorem X3_snapshot_name_has_no_separator (path : string) (now : Clock) :
  no_sep (make_json_file_name path now) = true /\
  String.prefix "dirs_" (make_json_file_name path now) = true /\
  exists stem, make_json_file_name path now = (stem ++ ".json")%string /\
               String.length stem =
               (5 + String.length path + String.length (time_to_str now))%nat.
Proof.
  unfold make_json_file_name. split; [|split].
  - rewrite !no_sep_app, flatten_path_no_sep, time_to_str_no_sep. reflexivity.
  - apply prefix_append.
  - exists ("dirs_" ++ flatten_path path ++ time_to_str now)%string. split.
    + rewrite !string_app_assoc. reflexivity.
    + rewrite !string_length_app, flatten_path_length. reflexivity.
Qed.

(** ** [readable_size] *)

Lemma readable_level (size : Z) (unit : ascii) (nbytes : Z) :
  0 < size / 1024 -> size = 1024 * (size / 1024) -> size <= nbytes ->
  let low_size := size / 1024 in
  let quot := nbytes / size in
  let remainder := (nbytes - quot * size) / low_size in
  1 <= quot /\ 0 <= remainder <= 1023 /\
  quot * size + remainder * low_size <= nbytes
    < quot * size + remainder * low_size + low_size.
Proof.
  intros Hlow Hsize Hn. cbv zeta.
  set (low := size / 1024) in *. clearbody low. subst size.
  assert (Hq : 1 <= nbytes / (1024 * low)).
  { apply Z.div_le_lower_bound; lia. }
  pose proof (Z.div_mod nbytes (1024 * low) ltac:(lia)) as Hdm.
  pose proof (Z.mod_pos_bound nbytes (1024 * low) ltac:(lia)) as Hmod.
  set (q := nbytes / (1024 * low)) in *.
  replace (nbytes - q * (1024 * low)) with (nbytes mod (1024 * low)) by lia.
  set (m := nbytes mod (1024 * low)) in *.
  pose proof (Z.div_mod m low ltac:(lia)) as Hdm'.
  pose proof (Z.mod_pos_bound m low ltac:(lia)) as Hmod'.
  assert (0 <= m / low) by (apply Z.div_pos; lia).
  assert (m / low < 1024) by (apply Z.div_lt_upper_bound; lia).
  nia.
Qed.

(** The rounded quotient is within half a unit of the exact one. *)
Lemma round_half_even_near (num den : Z) :
  0 < den ->
  - den <= 2 * (num - round_half_even num den * den) <= den.
Proof.
  intro Hden. unfold round_half_even.
  pose proof (Z.div_mod num den ltac:(lia)) as Hdm.
  pose proof (Z.mod_pos_bound num den Hden) as Hmod.
  destruct (Z.ltb_spec (2 * (num mod den)) den) as [H1|H1]; [nia|].
  destruct (Z.ltb_spec den (2 * (num mod den))) as [H2|H2]; [nia|].
  destruct (Z.even (num / den)); nia.
Qed.

(** Whole units do not change the rounding of the fraction. *)
Lemma round_half_even_whole (quot remainder : Z) :
  round_half_even ((quot * 1024 + remainder) * 1000) 1024 =
  quot * 1000 + round_half_even (remainder * 1000) 1024.
Proof.
  unfold round_half_even.
  replace ((quot * 1024 + remainder) * 1000)
    with (remainder * 1000 + (quot * 500 * 2) * 1024) by lia.
  rewrite Z.div_add, Z.mod_add by discriminate.
  replace (remainder * 1000 / 1024 + quot * 500 * 2)
    with (remainder * 1000 / 1024 + 2 * (quot * 500)) by lia.
  rewrite Z.even_add_mul_2.
  destruct (2 * ((remainder * 1000) mod 1024) <? 1024); [lia|].
  destruct (1024 <? 2 * ((remainder * 1000) mod 1024)); [lia|].
  destruct (Z.even (remainder * 1000 / 1024)); lia.
Qed.

Lemma fmt_3lf_digits (quot remainder : Z) :
  1 <= remainder <= 1023 ->
  let m := round_half_even (remainder * 1000) 1024 in
  1 <= m <= 999 /\
  - 512 <= remainder * 1000 - m * 1024 <= 512 /\
  fmt_3lf (quot * 1024 + remainder) =
    (decimal quot ++ "." ++ fmt_0zu 3 m)%string.
Proof.
  intros Hr m.
  pose proof (round_half_even_near (remainder * 1000) 1024 ltac:(lia)) as Hm.
  fold m in Hm.
  assert (Hb : 1 <= m <= 999) by lia.
  split; [exact Hb|]. split; [lia|].
  unfold fmt_3lf. rewrite round_half_even_whole. fold m.
  replace ((quot * 1000 + m) / 1000) with quot
    by (apply (Z.div_unique _ _ quot m); lia).
  replace ((quot * 1000 + m) mod 1000) with m
    by (apply (Z.mod_unique _ _ quot m); lia).
  reflexivity.
Qed.

(** The text of one level. *)
Lemma level_text (size : Z) (unit : ascii) (nbytes : Z) :
  0 < size / 1024 -> size = 1024 * (size / 1024) -> size <= nbytes ->
  let low_size := size / 1024 in
  let quot := nbytes / size in
  let remainder := (nbytes - quot * size) / low_size in
  let m := round_half_even (remainder * 1000) 1024 in
  let text :=
    if remainder =? 0 then snprintf 64 (decimal quot ++ String unit "")
    else snprintf 64 (fmt_3lf (quot * 1024 + remainder) ++ String unit "") in
  1 <= quot /\
  ((nbytes - quot * size < low_size /\
    text = snprintf 64 (decimal quot ++ String unit "")) \/
   (low_size <= nbytes - quot * size /\
    1 <= remainder <= 1023 /\
    1 <= m <= 999 /\
    text = snprintf 64 (decimal quot ++ "." ++ fmt_0zu 3 m ++ String unit "") /\
    - 512 * low_size <= 1000 * nbytes - (1000 * quot + m) * size
      < 1512 * low_size)).
Proof.
  intros Hlow Hsize Hn.
  pose proof (readable_level size unit nbytes Hlow Hsize Hn) as H.
  cbv zeta in *. destruct H as (Hq & Hr & Hlo & Hhi).
  split; [exact Hq|].
  set (low := size / 1024) in *.
  set (q := nbytes / size) in *.
  set (r := (nbytes - q * size) / low) in *.
  destruct (Z.eqb_spec r 0) as [E|E].
  - left. split; [lia|reflexivity].
  - right.
    destruct (fmt_3lf_digits q r ltac:(lia)) as (Hm & Hd & Ht).
    cbv zeta in Hm, Hd, Ht.
    set (m := round_half_even (r * 1000) 1024) in *.
    split; [nia|]. split; [lia|]. split; [exact Hm|]. split.
    + rewrite Ht, !string_app_assoc. reflexivity.
    + clearbody m r q low. subst size. nia.
Qed.

(** X4: for a byte count of a [size_t], the text [readable_size] prints.
    Below 1024 it is the plain number.  Otherwise the unit is the largest
    one that is not above the count (the quotient is below 1024 unless
    the unit is [T]).  When fewer bytes than 1/1024 of the unit follow
    the quotient, the text is the quotient and the unit, so not only for
    exact multiples of the unit.  Otherwise the count is first cut down
    to a multiple of 1/1024 of the unit and that value is printed
    rounded to thousandths of the unit, a tie to the even digit: the
    text is the quotient, a point, three digits [m] between 001 and 999
    (the rounding never carries into the quotient) and the unit.  The
    value the text states can be above the count, by at most 512/1024
    of 1/1000 of the unit, and is below it by less than 1512/1024 of
    1/1000 of the unit; counts that differ by less than that can print
    the same text. *)
Theorem X4_readable_size_rounds_to_thousandths (nbytes : Z) :
  0 <= nbytes < SIZE_T_MOD ->
  (nbytes < 1024 -> readable_size nbytes = snprintf 64 (decimal nbytes)) /\
  (1024 <= nbytes ->
   exists size unit,
     In (size, unit) levels /\ size <= nbytes /\
     (nbytes < 1024 * size \/ unit = "T"%char) /\
     let low_size := size / 1024 in
     let quot := nbytes / size in
     let remainder := (nbytes - quot * size) / low_size in
     let m := round_half_even (remainder * 1000) 1024 in
     1 <= quot /\
     ((nbytes - quot * size < low_size /\
       readable_size nbytes = snprintf 64 (decimal quot ++ String unit "")) \/
      (low_size <= nbytes - quot * size /\
       1 <= remainder <= 1023 /\
       1 <= m <= 999 /\
       readable_size nbytes =
         snprintf 64 (decimal quot ++ "." ++ fmt_0zu 3 m ++ String unit "") /\
       - 512 * low_size <= 1000 * nbytes - (1000 * quot + m) * size
         < 1512 * low_size))).
Proof.
  intros [H0 _]. unfold readable_size, levels. cbn [readable_loop].
  destruct (Z.geb_spec nbytes (1024 * 1024 * 1024 * 1024)) as [HT|HT].
  { split; [lia|intros _].
    exists (1024 * 1024 * 1024 * 1024), "T"%char.
    split; [cbn; tauto|]. split; [exact HT|]. split; [right; reflexivity|].
    apply (level_text _ "T"%char); [reflexivity|reflexivity|exact HT]. }
  destruct (Z.geb_spec nbytes (1024 * 1024 * 1024)) as [HG|HG].
  { split; [lia|intros _].
    exists (1024 * 1024 * 1024), "G"%char.
    split; [cbn; tauto|]. split; [exact HG|]. split; [left; lia|].
    apply (level_text _ "G"%char); [reflexivity|reflexivity|exact HG]. }
  destruct (Z.geb_spec nbytes (1024 * 1024)) as [HM|HM].
  { split; [lia|intros _].
    exists (1024 * 1024), "M"%char.
    split; [cbn; tauto|]. split; [exact HM|]. split; [left; lia|].
    apply (level_text _ "M"%char); [reflexivity|reflexivity|exact HM]. }
  destruct (Z.geb_spec nbytes 1024) as [HK|HK].
  { split; [lia|intros _].
    exists 1024, "K"%char.
    split; [cbn; tauto|]. split; [exact HK|]. split; [left; lia|].
    apply (level_text _ "K"%char); [reflexivity|reflexivity|exact HK]. }
  split; [reflexivity|lia].
Qed.

Lemma X4_readable_size_rounds_to_thousandths_witness :
  0 <= 1025 < SIZE_T_MOD /\
  readable_size 1025 = "1.001K" /\
  readable_size 1045 = "1.021K" /\ readable_size 1046 = "1.021K" /\
  readable_size 1088 = "1.062K" /\ readable_size 1216 = "1.188K" /\
  readable_size 2047 = "1.999K" /\ readable_size 1048577 = "1M" /\
  readable_size 1023 = "1023" /\
  exists size unit, In (size, unit) levels /\ size <= 1025.
Proof.
  assert (R : 0 <= 1025 < SIZE_T_MOD) by (split; [discriminate|reflexivity]).
  split; [exact R|].
  repeat (split; [reflexivity|]).
  destruct (proj2 (X4_readable_size_rounds_to_thousandths 1025 R) ltac:(discriminate))
    as (size & unit & Hin & Hle & _).
  exists size, unit. split; [exact Hin|exact Hle].
Defined.

(** ** Trees the walk builds *)

Lemma nodes_unfold (f : FileInfo) : nodes f = f :: flat_map nodes (sub_files_ f).
Proof. destruct f. reflexivity. Qed.

Lemma build_type (root : string) (fs : FsNode) (depth : Z) :
  type_ (build root fs depth) = entry_type (lstat fs).
Proof.
  unfold build. destruct fs as [st d]. cbn [lstat].
  rewrite <- (set_path_type FileInfo0 root st) by reflexivity.
  destruct (type_ (set_path FileInfo0 root st) =? FILE_TYPE_DIRECTORY) eqn:E.
  - rewrite walk_dir by exact E. destruct d as [ents|]; [|reflexivity].
    rewrite readdir_loop_spec. reflexivity.
  - rewrite walk_not_dir by exact E. reflexivity.
Qed.

Lemma entry_type_cases (st : option Stat) :
  entry_type st = FILE_TYPE_UNKNOWN \/ entry_type st = FILE_TYPE_REGULAR \/
  entry_type st = FILE_TYPE_DIRECTORY \/ entry_type st = FILE_TYPE_LINK.
Proof.
  unfold entry_type, set_path. destruct st as [st|]; [destruct (st_mode st)|]; cbn; auto.
Qed.

Lemma retained_in (st : option Stat) (d : option (list (string * FsNode)))
      (depth : Z) (e : string * FsNode) :
  In e (retained (mkFsNode st d) depth) ->
  0 < depth /\ entry_type st = FILE_TYPE_DIRECTORY /\ kept e = true /\
  exists ents, d = Some ents /\ In e ents.
Proof.
  unfold retained, listing. cbn [lstat opendir].
  destruct (Z.gtb_spec depth 0) as [Hd|Hd]; [|intros []].
  destruct (Z.eqb_spec (entry_type st) FILE_TYPE_DIRECTORY) as [Ht|Ht]; [|intros []].
  destruct d as [ents|]; [|intros []].
  intro H. apply filter_In in H. destruct H as [Hin Hk].
  split; [lia|]. split; [exact Ht|]. split; [exact Hk|]. exists ents. split; auto.
Qed.

Lemma distinct_names_unfold (st : option Stat) (ents : list (string * FsNode)) :
  distinct_names (mkFsNode st (Some ents)) <->
  NoDup (map fst ents) /\ Forall (fun e => distinct_names (snd e)) ents.
Proof.
  cbn [distinct_names]. apply and_iff_compat_l.
  induction ents as [|e r IH].
  - split; [constructor|trivial].
  - rewrite IH. split.
    + intros [He Hr]. constructor; assumption.
    + intro H. inversion H; subst. split; assumption.
Qed.

(** A property of single nodes that every built tree has at its root
    holds at every node of a built tree. *)
Section built_nodes.
Variable H : FsNode -> Prop.
Variable L : FileInfo -> Prop.
Hypothesis H_below :
  forall st ents e, H (mkFsNode st (Some ents)) -> In e ents -> H (snd e).
Hypothesis L_root : forall root fs depth, H fs -> L (build root fs depth).

Lemma build_nodes_Forall (fs : FsNode) :
  forall root depth, H fs -> Forall L (nodes (build root fs depth)).
Proof.
  induction fs as [st d IH] using FsNode_ind'. intros root depth Hfs.
  rewrite nodes_unfold. constructor; [apply L_root; exact Hfs|].
  rewrite build_sub_files. apply Forall_flat_map, Forall_map, Forall_forall.
  intros e He. apply retained_in in He.
  destruct He as (_ & _ & _ & ents & -> & Hin).
  rewrite Forall_forall in IH. unfold child_of.
  apply (IH e Hin). eapply H_below; eassumption.
Qed.
End built_nodes.

Lemma build_node_classified (root : string) (fs : FsNode) (depth : Z) :
  node_classified (build root fs depth).
Proof.
  unfold node_classified. rewrite build_type, build_sub_files. split.
  - destruct fs as [st d]. destruct (retained (mkFsNode st d) depth) as [|e r] eqn:E;
      [intro N; destruct (N eq_refl)|].
    intros _. assert (Hin : In e (retained (mkFsNode st d) depth)) by (rewrite E; left; reflexivity).
    apply retained_in in Hin. apply Hin.
  - apply Forall_map, Forall_forall. intros e He. destruct fs as [st d].
    apply retained_in in He. destruct He as (_ & _ & Hk & _).
    unfold child_of. rewrite build_type.
    unfold kept in Hk. apply andb_true_iff in Hk. destruct Hk as [_ Hk].
    apply negb_true_iff, Z.eqb_neq in Hk.
    destruct (entry_type_cases (lstat (snd e))) as [E|E]; [contradiction|exact E].
Qed.

(** X5: in every tree the walk builds, whatever the file system, only
    directories have children and every child is a regular file, a
    directory or a link: an entry of unknown type is never part of a
    tree (the root alone can be). *)
Theorem X5_built_tree_holds_classified_entries (root : string) (fs : FsNode) (depth : Z) :
  Forall node_classified (nodes (build root fs depth)).
Proof.
  apply (build_nodes_Forall (fun _ => True)); auto.
  intros. apply build_node_classified.
Qed.

Lemma height_le (f : FileInfo) (k : nat) :
  Forall (fun c => (S (height c) <= k)%nat) (sub_files_ f) -> (height f <= k)%nat.
Proof.
  destruct f as [s p l t]. cbn [sub_files_ height].
  induction 1 as [|c r Hc Hr IH]; [apply Nat.le_0_l|].
  apply Nat.max_lub; assumption.
Qed.

Lemma build_height (fs : FsNode) :
  forall root depth, (height (build root fs depth) <= Z.to_nat depth)%nat.
Proof.
  induction fs as [st d IH] using FsNode_ind'. intros root depth.
  apply height_le. rewrite build_sub_files. apply Forall_map, Forall_forall.
  intros e He. apply retained_in in He.
  destruct He as (Hd & _ & _ & ents & -> & Hin).
  rewrite Forall_forall in IH. unfold child_of.
  pose proof (IH e Hin (join_path root (fst e)) (depth - 1)) as Hc.
  replace (Z.to_nat depth) with (S (Z.to_nat (depth - 1))) by lia. lia.
Qed.

(** X6: a built tree has at most [depth] levels of children, none for a
    depth that is not positive; the tree [cmd_stat] builds has at most
    five. *)
Theorem X6_built_tree_height_is_bounded (root : string) (fs : FsNode) (depth : Z) :
  (height (build root fs depth) <= Z.to_nat depth)%nat /\
  (height (build root fs 5) <= 5)%nat.
Proof. split; apply build_height. Qed.

Lemma build_node_joined (root : string) (fs : FsNode) (depth : Z) :
  node_joined (build root fs depth).
Proof.
  unfold node_joined. rewrite build_path, build_sub_files.
  apply Forall_map, Forall_forall. intros e He. destruct fs as [st d].
  apply retained_in in He. destruct He as (_ & _ & Hk & _).
  exists (fst e). unfold child_of. rewrite build_path. split; [|reflexivity].
  unfold kept in Hk. apply andb_true_iff in Hk. destruct Hk as [Hk _].
  apply negb_true_iff in Hk. exact Hk.
Qed.

(** X7: in every built tree the path of a child is the path of its
    parent joined with the name of an entry other than [.] and [..]; so
    the parent's path is a prefix of the child's path, and the path of
    the root is the path the walk was given. *)
Theorem X7_built_paths_are_joined (root : string) (fs : FsNode) (depth : Z) :
  path_ (build root fs depth) = root /\
  Forall node_joined (nodes (build root fs depth)) /\
  Forall (fun n => Forall (fun c => String.prefix (path_ n) (path_ c) = true)
                          (sub_files_ n))
         (nodes (build root fs depth)).
Proof.
  assert (Hj : Forall node_joined (nodes (build root fs depth))).
  { apply (build_nodes_Forall (fun _ => True)); auto.
    intros. apply build_node_joined. }
  split; [apply build_path|]. split; [exact Hj|].
  eapply Forall_impl; [|exact Hj].
  intros n Hn. eapply Forall_impl; [|exact Hn].
  intros c (name & _ & E). rewrite E. apply join_path_prefix.
Qed.

Lemma distinct_after_filter (X Y : Type) (f : X -> Y) (p : X -> bool) (l : list X) :
  NoDup (map f l) -> NoDup (map f (filter p l)).
Proof.
  induction l as [|x l IH]; simpl; intro H; [constructor|].
  inversion H as [|? ? Hx Hl]; subst.
  destruct (p x); simpl; [|auto].
  constructor; [|auto].
  intro Hin. apply Hx. apply in_map_iff in Hin. destruct Hin as (y & E & Hy).
  apply filter_In in Hy. apply in_map_iff. exists y. split; [exact E|apply Hy].
Qed.

Lemma distinct_images (X Y : Type) (g : X -> Y) (xs : list X) :
  (forall a b, g a = g b -> a = b) -> NoDup xs -> NoDup (map g xs).
Proof.
  intros Hg. induction 1 as [|x xs Hx Hxs IH]; simpl; constructor; [|exact IH].
  intro Hin. apply in_map_iff in Hin. destruct Hin as (y & E & Hy).
  apply Hg in E. subst y. contradiction.
Qed.

Lemma build_node_distinct (root : string) (fs : FsNode) (depth : Z) :
  distinct_names fs -> node_distinct (build root fs depth).
Proof.
  intro Hfs. unfold node_distinct. rewrite build_sub_files, map_map.
  rewrite (map_ext _ (fun e => join_path root (fst e)))
    by (intro e; unfold child_of; apply build_path).
  unfold retained, listing. destruct (depth >? 0); [|constructor].
  destruct (entry_type (lstat fs) =? FILE_TYPE_DIRECTORY); [|constructor].
  destruct fs as [st [ents|]]; cbn [opendir]; [|constructor].
  apply distinct_names_unfold in Hfs. destruct Hfs as [Hnd _].
  rewrite <- (map_map fst (join_path root)).
  apply distinct_images; [intros a b; apply join_path_inj|].
  apply distinct_after_filter. exact Hnd.
Qed.

(** X8: when no directory lists a name twice, no node of the built tree
    has two children with the same path. *)
Theorem X8_distinct_names_give_distinct_paths (root : string) (fs : FsNode) (depth : Z) :
  distinct_names fs -> Forall node_distinct (nodes (build root fs depth)).
Proof.
  apply (build_nodes_Forall distinct_names).
  - intros st ents e Hfs Hin. apply distinct_names_unfold in Hfs.
    destruct Hfs as [_ Hall]. rewrite Forall_forall in Hall. apply Hall. exact Hin.
  - intros. apply build_node_distinct. assumption.
Qed.

Lemma X8_distinct_names_give_distinct_paths_witness :
  distinct_names fs_deep /\ Forall node_distinct (nodes (build "/r" fs_deep 5)).
Proof.
  assert (H : distinct_names fs_deep).
  { cbn. repeat split; repeat constructor; cbn; intro H;
      repeat destruct H as [H|H]; try discriminate; exact H. }
  split; [exact H|]. apply (X8_distinct_names_give_distinct_paths "/r" fs_deep 5 H).
Defined.

(** ** More on the codec *)

Lemma reloaded_path (f : FileInfo) : path_ (reloaded f) = path_ f.
Proof. destruct f. reflexivity. Qed.

Lemma reloaded_nodes (f : FileInfo) :
  Permutation (map node_fields (nodes (reloaded f))) (map reloaded_fields (nodes f)).
Proof.
  induction f as [s p l t IH] using FileInfo_ind'.
  cbn [reloaded]. rewrite !nodes_unfold. cbn [sub_files_ map].
  apply perm_skip.
  eapply perm_trans.
  { apply Permutation_map, Permutation_flat_map, Permutation_sym, sort_list_perm. }
  clear s p t. induction IH as [|x r Hx Hr IHr]; [constructor|].
  cbn [map flat_map]. rewrite !map_app. apply Permutation_app; assumption.
Qed.

(** X9: writing a tree and reading it back never fails and never loses
    or adds a node: the nodes of the result are the nodes of the tree
    in some order, each with its path, its size modulo 2^32 and its type
    code passed through [unsigned] and [int]. *)
Theorem X9_round_trip_keeps_every_node (f : FileInfo) :
  exists n,
    deserialize (to_json f) = Done true n /\
    path_ n = path_ f /\
    Permutation (map node_fields (nodes n)) (map reloaded_fields (nodes f)) /\
    List.length (nodes n) = List.length (nodes f).
Proof.
  exists (reloaded f). split; [apply from_json_to_json|].
  split; [apply reloaded_path|]. split; [apply reloaded_nodes|].
  pose proof (Permutation_length (reloaded_nodes f)) as H.
  rewrite !length_map in H. exact H.
Qed.

Lemma to_int_range (u : Z) : 0 <= u < UINT_MOD -> - 2 ^ 31 <= to_int u <= INT_MAX.
Proof.
  unfold to_int, INT_MAX, UINT_MOD. intro H.
  destruct (Z.leb_spec u (2 ^ 31 - 1)); lia.
Qed.

Lemma sorted_distinct_ascending (l : list FileInfo) :
  subs_sorted l -> NoDup (map path_ l) -> subs_ascending l.
Proof.
  unfold subs_sorted, subs_ascending.
  induction 1 as [|x l Hl IH Hx]; intro Hnd; constructor.
  - apply IH. inversion Hnd; assumption.
  - destruct Hx as [|y r Hxy]; constructor.
    unfold path_le, PathLess in *.
    destruct (path_lt_total _ _ Hxy) as [E|Hlt]; [|exact Hlt].
    inversion Hnd as [|? ? Hin _]; subst. exfalso. apply Hin. left. symmetry. exact E.
Qed.

Lemma reloaded_codec_exact (f : FileInfo) :
  Forall node_distinct (nodes f) -> codec_exact (reloaded f).
Proof.
  induction f as [s p l t IH] using FileInfo_ind'.
  rewrite nodes_unfold. cbn [sub_files_]. intro H.
  inversion H as [|? ? Hroot Hsubs]; subst. unfold node_distinct in Hroot. cbn [sub_files_] in Hroot.
  cbn [reloaded]. apply codec_exact_unfold.
  split; [apply to_unsigned_range|]. split; [apply to_int_range, to_unsigned_range|].
  split.
  - apply sorted_distinct_ascending; [apply sort_list_sorted|].
    eapply Permutation_NoDup; [apply Permutation_map, sort_list_perm|].
    rewrite map_map. rewrite (map_ext _ path_) by apply reloaded_path. exact Hroot.
  - apply sort_list_Forall, Forall_map.
    rewrite Forall_flat_map in Hsubs.
    rewrite Forall_forall in *. intros x Hx. apply (IH x Hx). apply Hsubs. exact Hx.
Qed.

(** X10: for a tree in which no node has two children with the same
    path, one cycle of writing and reading gives a tree that every
    further cycle gives back unchanged, and that has its children
    ascending at every node. *)
Theorem X10_round_trip_is_stable_after_one_cycle (f : FileInfo) :
  Forall node_distinct (nodes f) ->
  exists n,
    deserialize (to_json f) = Done true n /\
    deserialize (to_json n) = Done true n /\
    tree_sorted n.
Proof.
  intro H. exists (reloaded f).
  assert (E : deserialize (to_json f) = Done true (reloaded f)) by apply from_json_to_json.
  split; [exact E|]. split.
  - apply round_trip_exact, reloaded_codec_exact. exact H.
  - eapply from_json_tree_sorted; [apply tree_sorted_FileInfo0|exact E].
Qed.

Lemma X10_round_trip_is_stable_after_one_cycle_witness :
  Forall node_distinct (nodes (build "/r" fs_big 5)) /\
  deserialize (to_json (directory "/r" 4096 [reg_file "/r/big" 0])) =
    Done true (directory "/r" 4096 [reg_file "/r/big" 0]).
Proof.
  assert (H : Forall node_distinct (nodes (build "/r" fs_big 5))).
  { repeat constructor. cbn. intros []. }
  split; [exact H|].
  destruct (X10_round_trip_is_stable_after_one_cycle _ H) as (n & E1 & E2 & _).
  change (deserialize (to_json (build "/r" fs_big 5)))
    with (Done true (directory "/r" 4096 [reg_file "/r/big" 0])) in E1.
  injection E1 as <-. exact E2.
Defined.

Lemma members_loop_app (F : JValue -> FileInfo -> Run) (ms1 ms2 : list (string * JValue)) :
  forall this,
    members_loop F (ms1 ++ ms2) this =
    match members_loop F ms1 this with
    | Done true this1 => members_loop F ms2 this1
    | other => other
    end.
Proof.
  induction ms1 as [|m ms1 IH]; intro this; [reflexivity|].
  cbn [app]. rewrite !members_loop_step.
  destruct (member_step F m this); [apply IH|reflexivity].
Qed.

(** A field that no member names is left as it was. *)
Section untouched_field.
Variable F : JValue -> FileInfo -> Run.
Variable A : Type.
Variable fld : Field.
Variable proj : FileInfo -> A.
Hypothesis step_keeps :
  forall m this this',
    field_of (fst m) <> Some fld -> member_step F m this = Some this' ->
    proj this' = proj this.

Lemma members_loop_keeps (ms : list (string * JValue)) :
  Forall (fun m => field_of (fst m) <> Some fld) ms ->
  forall this ret n, members_loop F ms this = Done ret n -> proj n = proj this.
Proof.
  induction 1 as [|m ms Hm Hms IH]; intros this ret n Hrun.
  - cbn in Hrun. congruence.
  - rewrite members_loop_step in Hrun.
    destruct (member_step F m this) as [this1|] eqn:E; [|discriminate].
    rewrite (IH _ _ _ Hrun). eapply step_keeps; eassumption.
Qed.
End untouched_field.

Ltac step_keeps_tac :=
  intros [name value] this this' Hne E; cbn [fst member_step] in *;
  destruct (field_of name) as [[| | |]|]; try congruence;
  repeat match type of E with
         | context [GetString ?v] => destruct (GetString v)
         | context [GetUint ?v] => destruct (GetUint v)
         | context [match ?v with JArray _ => _ | _ => _ end] => destruct v
         | context [subs_loop ?F ?es ?l] => destruct (subs_loop F es l)
         end;
  cbn [option_map] in E; try discriminate; injection E as <-; reflexivity.

Lemma members_loop_keeps_path (F : JValue -> FileInfo -> Run) (ms : list (string * JValue)) :
  Forall (fun m => field_of (fst m) <> Some FPath) ms ->
  forall this ret n, members_loop F ms this = Done ret n -> path_ n = path_ this.
Proof. apply members_loop_keeps. step_keeps_tac. Qed.

Lemma members_loop_keeps_size (F : JValue -> FileInfo -> Run) (ms : list (string * JValue)) :
  Forall (fun m => field_of (fst m) <> Some FSize) ms ->
  forall this ret n, members_loop F ms this = Done ret n -> size_ n = size_ this.
Proof. apply members_loop_keeps. step_keeps_tac. Qed.

Lemma members_loop_keeps_type (F : JValue -> FileInfo -> Run) (ms : list (string * JValue)) :
  Forall (fun m => field_of (fst m) <> Some FType) ms ->
  forall this ret n, members_loop F ms this = Done ret n -> type_ n = type_ this.
Proof. apply members_loop_keeps. step_keeps_tac. Qed.

Lemma members_loop_last (F : JValue -> FileInfo -> Run)
      (ms ms' : list (string * JValue)) (m : string * JValue)
      (this : FileInfo) (ret : bool) (n : FileInfo) :
  members_loop F (ms ++ m :: ms') this = Done ret n ->
  exists this1 this2,
    member_step F m this1 = Some this2 /\ members_loop F ms' this2 = Done ret n.
Proof.
  rewrite members_loop_app. destruct (members_loop F ms this) as [[|] this1|] eqn:E;
    try discriminate.
  - rewrite members_loop_step. destruct (member_step F m this1) as [this2|] eqn:E2;
      [|discriminate].
    intro H. exists this1, this2. split; assumption.
  - apply members_loop_true in E. discriminate.
Qed.

(** X11: of several members with the name of a scalar field the last one
    decides: after a successful read the path is the string of the last
    [path] member, the size the number of the last [size] member, the
    type the number of the last [type] member as an [int]; a field whose
    name no member bears keeps the value it had. *)
Theorem X11_last_member_decides_a_field :
  (forall ms ms' name value this ret n,
      from_json (JObject (ms ++ (name, value) :: ms')) this = Done ret n ->
      Forall (fun m => field_of (fst m) <> field_of name) ms' ->
      match field_of name with
      | Some FPath => value = JString (path_ n)
      | Some FSize => value = JInt (size_ n)
      | Some FType => exists u, value = JInt u /\ type_ n = to_int u
      | _ => True
      end) /\
  (forall ms this ret n,
      from_json (JObject ms) this = Done ret n ->
      (Forall (fun m => field_of (fst m) <> Some FPath) ms -> path_ n = path_ this) /\
      (Forall (fun m => field_of (fst m) <> Some FSize) ms -> size_ n = size_ this) /\
      (Forall (fun m => field_of (fst m) <> Some FType) ms -> type_ n = type_ this)).
Proof.
  split.
  - intros ms ms' name value this ret n Hrun Hrest. cbn [from_json] in Hrun.
    apply members_loop_last in Hrun. destruct Hrun as (this1 & this2 & Hstep & Hrun).
    cbn [member_step] in Hstep.
    destruct (field_of name) as [[| | |]|] eqn:Ef; try exact I.
    + destruct value; try discriminate. cbn in Hstep. injection Hstep as <-.
      rewrite (members_loop_keeps_path _ _ Hrest _ _ _ Hrun). reflexivity.
    + destruct (GetUint value) as [u|] eqn:Eu; [|discriminate].
      cbn in Hstep. injection Hstep as <-.
      rewrite (members_loop_keeps_size _ _ Hrest _ _ _ Hrun). cbn [size_ set_size].
      destruct value; try discriminate. unfold GetUint in Eu.
      destruct ((0 <=? z) && (z <? UINT_MOD)); congruence.
    + destruct (GetUint value) as [u|] eqn:Eu; [|discriminate].
      cbn in Hstep. injection Hstep as <-.
      rewrite (members_loop_keeps_type _ _ Hrest _ _ _ Hrun). cbn [type_ set_type].
      destruct value; try discriminate. unfold GetUint in Eu.
      destruct ((0 <=? z) && (z <? UINT_MOD)); [|discriminate].
      injection Eu as <-. exists z. split; reflexivity.
  - intros ms this ret n Hrun. cbn [from_json] in Hrun. repeat split; intro H.
    + eapply members_loop_keeps_path; eassumption.
    + eapply members_loop_keeps_size; eassumption.
    + eapply members_loop_keeps_type; eassumption.
Qed.

Lemma X11_last_member_decides_a_field_witness :
  from_json (JObject [("path", JString "a"); ("size", JInt 1); ("path", JString "b")])
            FileInfo0 = Done true (mkFileInfo 1 "b" [] 0) /\
  JString "b" = JString (path_ (mkFileInfo 1 "b" [] 0)).
Proof.
  assert (E : from_json (JObject ([("path", JString "a"); ("size", JInt 1)]
                                    ++ ("path", JString "b") :: []))
                        FileInfo0 = Done true (mkFileInfo 1 "b" [] 0)) by reflexivity.
  split; [exact E|].
  exact (proj1 X11_last_member_decides_a_field _ _ _ _ _ _ _ E (Forall_nil _)).
Defined.

Lemma parsed_subs_app (es es' : list JValue) :
  parsed_subs (es ++ es') = parsed_subs es ++ parsed_subs es'.
Proof. unfold parsed_subs. apply flat_map_app. Qed.

Lemma subs_loop_some (es : list JValue) :
  forall subs subs',
    subs_loop from_json es subs = Some subs' -> subs' = subs ++ parsed_subs es.
Proof.
  induction es as [|e es IH]; intros subs subs' H; cbn [subs_loop] in H.
  - injection H as <-. cbn. rewrite app_nil_r. reflexivity.
  - change (parsed_subs (e :: es))
      with (match from_json e FileInfo0 with
            | Done true sub => [sub]
            | _ => []
            end ++ parsed_subs es).
    destruct (from_json e FileInfo0) as [[|] sub|]; [| |discriminate].
    + rewrite (IH _ _ H), <- app_assoc. reflexivity.
    + apply (IH _ _ H).
Qed.

Lemma members_loop_children (ms : list (string * JValue)) :
  forall this ret n,
    members_loop from_json ms this = Done ret n ->
    Permutation (sub_files_ n) (sub_files_ this ++ parsed_subs (subs_elements ms)).
Proof.
  induction ms as [|[name value] ms IH]; intros this ret n Hrun.
  - cbn in Hrun. injection Hrun as _ <-. cbn. rewrite app_nil_r. apply Permutation_refl.
  - rewrite members_loop_step in Hrun. cbn [member_step subs_elements] in *.
    destruct (field_of name) as [[| | |]|].
    + destruct (GetString value); [|discriminate]. cbn [option_map] in Hrun.
      destruct value; apply (IH _ _ _ Hrun).
    + destruct (GetUint value); [|discriminate]. cbn [option_map] in Hrun.
      destruct value; apply (IH _ _ _ Hrun).
    + destruct (GetUint value); [|discriminate]. cbn [option_map] in Hrun.
      destruct value; apply (IH _ _ _ Hrun).
    + destruct value; try apply (IH _ _ _ Hrun).
      destruct (subs_loop from_json elements (sub_files_ this)) as [subs|] eqn:E;
        [|discriminate].
      cbn [option_map] in Hrun. apply subs_loop_some in E. subst subs.
      eapply perm_trans; [apply (IH _ _ _ Hrun)|].
      cbn [sub_files_ sort_subs set_sub_files].
      rewrite parsed_subs_app, app_assoc. apply Permutation_app_tail.
      apply Permutation_sym, sort_list_perm.
    + destruct value; apply (IH _ _ _ Hrun).
Qed.

(** X12: a successful read keeps a node for every element of every
    [subs] array that deserializes, and nothing else: the children of
    the result are the children the receiver had and the parsed elements
    of all [subs] arrays of the object, in some order.  Two [subs]
    members add up, the second does not replace the first. *)
Theorem X12_subs_members_add_up (ms : list (string * JValue)) (this : FileInfo)
        (ret : bool) (n : FileInfo) :
  from_json (JObject ms) this = Done ret n ->
  Permutation (sub_files_ n) (sub_files_ this ++ parsed_subs (subs_elements ms)).
Proof. apply members_loop_children. Qed.

Lemma X12_subs_members_add_up_witness :
  from_json (JObject [("subs", JArray [JObject [("path", JString "b")]; JNull]);
                      ("subs", JArray [JObject [("path", JString "a")]])]) FileInfo0 =
    Done true (mkFileInfo 0 "" [mkFileInfo 0 "a" [] 0; mkFileInfo 0 "b" [] 0] 0) /\
  Permutation [mkFileInfo 0 "a" [] 0; mkFileInfo 0 "b" [] 0]
              [mkFileInfo 0 "b" [] 0; mkFileInfo 0 "a" [] 0].
Proof.
  assert (E : from_json
                (JObject [("subs", JArray [JObject [("path", JString "b")]; JNull]);
                          ("subs", JArray [JObject [("path", JString "a")]])]) FileInfo0 =
              Done true (mkFileInfo 0 "" [mkFileInfo 0 "a" [] 0; mkFileInfo 0 "b" [] 0] 0))
    by reflexivity.
  split; [exact E|]. exact (X12_subs_members_add_up _ _ _ _ E).
Defined.

Lemma c_str_cut (a b : string) : c_str (a ++ String zero b) = c_str a.
Proof.
  induction a as [|c a IH]; [reflexivity|].
  simpl. rewrite IH. reflexivity.
Qed.

Lemma c_str_idem (s : string) : c_str (c_str s) = c_str s.
Proof.
  induction s as [|c s IH]; [reflexivity|].
  simpl. destruct (Ascii.eqb c zero) eqn:E; [reflexivity|].
  simpl. rewrite E, IH. reflexivity.
Qed.

Lemma members_loop_c_str (F : JValue -> FileInfo -> Run) (ms : list (string * JValue)) :
  forall this,
    members_loop F (map (fun m => (c_str (fst m), snd m)) ms) this =
    members_loop F ms this.
Proof.
  induction ms as [|[name value] ms IH]; intro this; [reflexivity|].
  cbn [map fst snd members_loop]. unfold name_is. rewrite c_str_idem.
  repeat match goal with
         | |- context [String.eqb ?l (c_str name)] => destruct (String.eqb l (c_str name))
         | |- context [GetString value] => destruct (GetString value)
         | |- context [GetUint value] => destruct (GetUint value)
         end; try reflexivity; try apply IH.
  destruct value; try apply IH.
  destruct (subs_loop F elements (sub_files_ this)); [apply IH|reflexivity].
Qed.

(** X13: a member name counts up to its first NUL byte: a member whose
    name is [path], [size], [type] or [subs] followed by a NUL and
    anything else is read as that member, and a document reads like the
    document with every member name cut at its first NUL. *)
Theorem X13_member_names_end_at_nul :
  (forall a b, c_str (a ++ String zero b) = c_str a) /\
  (forall a b, field_of (a ++ String zero b) = field_of a) /\
  (forall ms this,
      from_json (JObject (map (fun m => (c_str (fst m), snd m)) ms)) this =
      from_json (JObject ms) this) /\
  (forall suffix value this,
      from_json (JObject [(("path" ++ String zero suffix)%string, value)]) this =
      from_json (JObject [("path", value)]) this).
Proof.
  split; [apply c_str_cut|].
  split; [intros a b; unfold field_of, name_is; rewrite c_str_cut; reflexivity|].
  split; [intros ms this; apply members_loop_c_str|].
  intros suffix value this. cbn [from_json].
  rewrite <- (members_loop_c_str _ [(("path" ++ String zero suffix)%string, value)]).
  cbn [map fst snd]. rewrite c_str_cut. reflexivity.
Qed.

(** X14: [from_json] does not depend on the order of the members nor on
    members of other names: when no two members of a document bear the
    name of the same field, every document with the same known members,
    in any order and among any members of other names, reads the same,
    from any receiver. *)
Theorem X14_member_order_is_irrelevant (ms ms' : list (string * JValue))
        (this : FileInfo) :
  NoDup (map (fun m => field_of (fst m)) ms) ->
  Permutation ms (filter known ms') ->
  from_json (JObject ms') this = from_json (JObject ms) this.
Proof. apply from_json_order_insensitive. Qed.

Lemma X14_member_order_is_irrelevant_witness :
  NoDup (map (fun m => field_of (fst m)) [("path", JString "/r"); ("size", JInt 7)]) /\
  Permutation [("path", JString "/r"); ("size", JInt 7)]
              (filter known [("mtime", JInt 1); ("size", JInt 7);
                             ("owner", JNull); ("path", JString "/r")]) /\
  from_json (JObject [("mtime", JInt 1); ("size", JInt 7);
                      ("owner", JNull); ("path", JString "/r")]) FileInfo0 =
  from_json (JObject [("path", JString "/r"); ("size", JInt 7)]) FileInfo0.
Proof.
  assert (Hnd : NoDup (map (fun m => field_of (fst m))
                           [("path", JString "/r"); ("size", JInt 7)])).
  { repeat constructor; cbn; intro H; repeat destruct H as [H|H]; try discriminate; exact H. }
  assert (Hperm : Permutation [("path", JString "/r"); ("size", JInt 7)]
                    (filter known [("mtime", JInt 1); ("size", JInt 7);
                                   ("owner", JNull); ("path", JString "/r")])).
  { apply perm_swap. }
  split; [exact Hnd|]. split; [exact Hperm|].
  apply (X14_member_order_is_irrelevant _ _ FileInfo0 Hnd Hperm).
Defined.

(** a tree the codec reproduces, and its document with the members of
    the root in another order and two members more *)
Lemma sample_exact : codec_exact (directory "/r" 300 [reg_file "/r/a" 100; reg_file "/r/b" 200]).
Proof.
  apply codec_exact_unfold. unfold UINT_MOD, INT_MAX, FILE_TYPE_DIRECTORY.
  split; [lia|]. split; [lia|]. split.
  - repeat constructor.
  - constructor; [|constructor; [|constructor]];
      apply codec_exact_unfold; unfold UINT_MOD, INT_MAX, FILE_TYPE_REGULAR;
      (split; [lia|]); (split; [lia|]); split; constructor.
Qed.

(** X15: a tree with sizes below 2^32, type codes in the range of [int]
    and strictly ascending children at every node is read back exactly
    as it was written, also when the members of the root object come in
    another order and among members of other names. *)
Theorem X15_exact_round_trip (f : FileInfo) (ms' : list (string * JValue)) :
  codec_exact f ->
  Permutation (members_of (to_json f)) (filter known ms') ->
  deserialize (to_json f) = Done true f /\ deserialize (JObject ms') = Done true f.
Proof.
  intros Hf Hperm. split.
  - apply round_trip_exact. exact Hf.
  - apply round_trip_scrambled; assumption.
Qed.

Lemma X15_exact_round_trip_witness :
  codec_exact (directory "/r" 300 [reg_file "/r/a" 100; reg_file "/r/b" 200]) /\
  deserialize
    (JObject [("subs", JArray [to_json (reg_file "/r/a" 100); to_json (reg_file "/r/b" 200)]);
              ("comment", JString "x"); ("type", JInt 2); ("path", JString "/r");
              ("size", JInt 300)]) =
  Done true (directory "/r" 300 [reg_file "/r/a" 100; reg_file "/r/b" 200]).
Proof.
  split; [exact sample_exact|].
  refine (proj2 (X15_exact_round_trip _ _ sample_exact _)).
  cbn. apply Permutation_sym.
  apply (perm_trans (l' := [("type", JInt 2); ("subs", JArray [to_json (reg_file "/r/a" 100); to_json (reg_file "/r/b" 200)]); ("path", JString "/r"); ("size", JInt 300)])).
  { apply perm_swap. }
  apply (perm_trans (l' := [("type", JInt 2); ("path", JString "/r"); ("subs", JArray [to_json (reg_file "/r/a" 100); to_json (reg_file "/r/b" 200)]); ("size", JInt 300)])).
  { apply perm_skip, perm_swap. }
  apply (perm_trans (l' := [("type", JInt 2); ("path", JString "/r"); ("size", JInt 300); ("subs", JArray [to_json (reg_file "/r/a" 100); to_json (reg_file "/r/b" 200)])])).
  { do 2 apply perm_skip. apply perm_swap. }
  apply (perm_trans (l' := [("path", JString "/r"); ("type", JInt 2); ("size", JInt 300); ("subs", JArray [to_json (reg_file "/r/a" 100); to_json (reg_file "/r/b" 200)])])).
  { apply perm_swap. }
  apply perm_skip, perm_swap.
Defined.

(** ** More on the diff engine *)

Lemma merge_loop_cons (F : FileInfo -> FileInfo -> list Report)
      (lfile : FileInfo) (ls : list FileInfo) (rfile : FileInfo) (rs : list FileInfo)
      (cc li : Z) :
  merge_loop F (lfile :: ls) (rfile :: rs) cc li =
  if String.eqb (path_ lfile) (path_ rfile) then
    emit (F lfile rfile)
         (merge_loop F ls rs
            (cc + (if negb (size_ lfile =? size_ rfile) then 1 else 0))
            (if size_ lfile >? size_ rfile then size_ lfile - size_ rfile else li))
  else if path_lt (path_ lfile) (path_ rfile) then
    emit [RNew (path_ lfile) (size_ lfile)]
         (if size_ lfile >? 0
          then merge_loop F ls (rfile :: rs) (cc + 1) (size_ lfile)
          else merge_loop F ls (rfile :: rs) cc li)
  else
    emit [RDel (path_ rfile) (size_ rfile)]
         (if size_ rfile >? 0
          then merge_loop F (lfile :: ls) rs (cc + 1) li
          else merge_loop F (lfile :: ls) rs cc li).
Proof. reflexivity. Qed.

Lemma lines_emit (out : list Report) (m : MergeState) : lines (emit out m) = out ++ lines m.
Proof. reflexivity. Qed.

Lemma last_inc_emit (out : list Report) (m : MergeState) : last_inc (emit out m) = last_inc m.
Proof. reflexivity. Qed.

Lemma change_count_emit (out : list Report) (m : MergeState) :
  change_count (emit out m) = change_count m.
Proof. reflexivity. Qed.

Lemma merge_silent_keeps_last_inc (ls : list FileInfo) :
  Forall (fun l => forall r, size_ r < size_ l -> diff l r <> []) ls ->
  forall rs cc li,
    lines (merge_loop diff ls rs cc li) = [] ->
    last_inc (merge_loop diff ls rs cc li) = li.
Proof.
  induction 1 as [|l ls Hl Hls IHl]; intros rs; [reflexivity|].
  induction rs as [|r rs IHr]; intros cc li.
  - rewrite merge_loop_older_done. cbn [tail_loop]. rewrite lines_emit. discriminate.
  - rewrite merge_loop_cons.
    destruct (String.eqb (path_ l) (path_ r)).
    + rewrite lines_emit, last_inc_emit. intro H. apply app_eq_nil in H.
      destruct H as [Hd Hm]. rewrite (IHl _ _ _ Hm).
      destruct (Z.gtb_spec (size_ l) (size_ r)) as [Hgt|_]; [|reflexivity].
      exfalso. apply (Hl r); [lia|exact Hd].
    + destruct (path_lt (path_ l) (path_ r)); rewrite lines_emit; discriminate.
Qed.

Lemma diff_silent_iff (newer : FileInfo) :
  forall older, diff newer older = [] <-> size_ newer <= size_ older.
Proof.
  induction newer as [s p l t IH] using FileInfo_ind'. intro older.
  split; [|apply diff_no_growth].
  cbn [size_]. rewrite diff_unfold.
  destruct (Z.leb_spec s (size_ older)) as [Hle|Hgt]; [intros _; exact Hle|].
  intro H. exfalso.
  destruct ((t =? FILE_TYPE_DIRECTORY) && (type_ older =? FILE_TYPE_DIRECTORY));
    [|discriminate].
  cbv zeta in H.
  destruct (Z.eqb_spec (change_count (merge_loop diff l (sub_files_ older) 0 0)) 1) as [_|_];
    [|apply app_eq_nil in H; destruct H; discriminate].
  destruct (Z.eqb_spec (last_inc (merge_loop diff l (sub_files_ older) 0 0))
                       (s - size_ older)) as [Hi|_];
    cbn [andb] in H; [|apply app_eq_nil in H; destruct H; discriminate].
  rewrite merge_silent_keeps_last_inc in Hi; [lia| |exact H].
  eapply Forall_impl; [|exact IH].
  intros x Hx r Hr Hd. apply Hx in Hd. lia.
Qed.

(** X16: [diff] is silent exactly when the newer node is not larger
    than the older one: whenever it is larger, at least one line is
    logged, whatever the two trees hold. *)
Theorem X16_diff_silent_iff_no_growth (newer older : FileInfo) :
  diff newer older = [] <-> size_ newer <= size_ older.
Proof. apply diff_silent_iff. Qed.

Lemma all_paths_unfold (f : FileInfo) :
  all_paths f = path_ f :: flat_map all_paths (sub_files_ f).
Proof. destruct f. reflexivity. Qed.

Lemma all_paths_child (f c : FileInfo) (p : string) :
  In c (sub_files_ f) -> In p (all_paths c) -> In p (all_paths f).
Proof.
  intros Hc Hp. rewrite all_paths_unfold. right. apply in_flat_map. exists c. auto.
Qed.

Lemma all_paths_self (f : FileInfo) : In (path_ f) (all_paths f).
Proof. rewrite all_paths_unfold. left. reflexivity. Qed.

Lemma line_ok_child (newer older l r : FileInfo) (x : Report) :
  In l (sub_files_ newer) -> In r (sub_files_ older) ->
  line_ok l r x -> line_ok newer older x.
Proof.
  intros Hl Hr. destruct x as [p s|p s|p inc]; cbn [line_ok].
  - apply all_paths_child; exact Hl.
  - apply all_paths_child; exact Hr.
  - intros [Hp Hinc]. split; [eapply all_paths_child; eassumption|exact Hinc].
Qed.

Lemma merge_lines_ok (newer older : FileInfo) (ls : list FileInfo) :
  Forall (fun l => forall r, Forall (line_ok l r) (diff l r)) ls ->
  incl ls (sub_files_ newer) ->
  forall rs cc li,
    incl rs (sub_files_ older) ->
    Forall (line_ok newer older) (lines (merge_loop diff ls rs cc li)).
Proof.
  induction 1 as [|l ls Hl Hls IHl]; intros Hin rs; [constructor|].
  assert (Hl_in : In l (sub_files_ newer)) by (apply Hin; left; reflexivity).
  assert (Hls_in : incl ls (sub_files_ newer)) by (intros x Hx; apply Hin; right; exact Hx).
  assert (Hnew : line_ok newer older (RNew (path_ l) (size_ l))).
  { cbn. eapply all_paths_child; [exact Hl_in|apply all_paths_self]. }
  induction rs as [|r rs IHr]; intros cc li Hrs.
  - rewrite merge_loop_older_done. cbn [tail_loop]. rewrite lines_emit.
    constructor; [exact Hnew|].
    rewrite <- (merge_loop_older_done diff). apply IHl; assumption.
  - assert (Hr_in : In r (sub_files_ older)) by (apply Hrs; left; reflexivity).
    assert (Hrs_in : incl rs (sub_files_ older)) by (intros x Hx; apply Hrs; right; exact Hx).
    rewrite merge_loop_cons.
    destruct (String.eqb (path_ l) (path_ r)).
    + rewrite lines_emit. apply Forall_app. split.
      * eapply Forall_impl; [|apply Hl]. intros x. apply line_ok_child; assumption.
      * apply IHl; assumption.
    + destruct (path_lt (path_ l) (path_ r)); rewrite lines_emit.
      * constructor; [exact Hnew|]. destruct (size_ l >? 0); apply IHl; assumption.
      * constructor.
        { cbn. eapply all_paths_child; [exact Hr_in|apply all_paths_self]. }
        destruct (size_ r >? 0); apply IHr; assumption.
Qed.

(** X17: every line of [diff] names a path of the tree it speaks of: a
    new or a growth line a path of a node of the newer tree, a deletion
    line a path of a node of the older tree; and the amount of a growth
    line is positive. *)
Theorem X17_diff_lines_name_nodes_of_the_trees (newer : FileInfo) :
  forall older, Forall (line_ok newer older) (diff newer older).
Proof.
  induction newer as [s p l t IH] using FileInfo_ind'. intro older.
  rewrite diff_unfold.
  destruct (Z.leb_spec s (size_ older)) as [_|Hgt]; [constructor|].
  assert (Hinc : line_ok (mkFileInfo s p l t) older (RInc p (s - size_ older))).
  { split; [left; reflexivity|lia]. }
  destruct ((t =? FILE_TYPE_DIRECTORY) && (type_ older =? FILE_TYPE_DIRECTORY));
    [|constructor; [exact Hinc|constructor]].
  assert (Hm : Forall (line_ok (mkFileInfo s p l t) older)
                      (lines (merge_loop diff l (sub_files_ older) 0 0))).
  { apply merge_lines_ok; [exact IH|apply incl_refl|apply incl_refl]. }
  cbv zeta.
  destruct ((change_count (merge_loop diff l (sub_files_ older) 0 0) =? 1) &&
            (last_inc (merge_loop diff l (sub_files_ older) 0 0) =? s - size_ older));
    [exact Hm|].
  apply Forall_app. split; [exact Hm|]. constructor; [exact Hinc|constructor].
Qed.

Lemma emit_nil (m : MergeState) : emit [] m = m.
Proof. destruct m. reflexivity. Qed.

Lemma merge_same_entries (ls rs : list FileInfo) :
  Forall2 same_entry ls rs ->
  forall ls' rs' cc li,
    merge_loop diff (ls ++ ls') (rs ++ rs') cc li = merge_loop diff ls' rs' cc li.
Proof.
  induction 1 as [|l r ls rs [Hp Hs] Hrest IH]; intros ls' rs' cc li; [reflexivity|].
  cbn [app]. rewrite merge_loop_cons, Hp, String.eqb_refl, Hs, Z.eqb_refl.
  cbn [negb]. rewrite Z.add_0_r, diff_no_growth, emit_nil by lia.
  destruct (Z.gtb_spec (size_ r) (size_ r)) as [Hgt|_]; [lia|]. apply IH.
Qed.

(** X18: when, among the children of two directories, one pair of the
    same path grew by exactly the amount the parent grew and all other
    children come in pairs of the same path and the same size, [diff]
    of the parents is [diff] of that pair: the growth is reported once,
    where it happened, however deep that is. *)
Theorem X18_growth_of_one_child_is_reported_once
        (p p' : string) (s s' : Z) (pre pre' post post' : list FileInfo)
        (c c' : FileInfo) :
  Forall2 same_entry pre pre' ->
  Forall2 same_entry post post' ->
  path_ c = path_ c' ->
  size_ c' < size_ c ->
  s - s' = size_ c - size_ c' ->
  diff (directory p s (pre ++ c :: post)) (directory p' s' (pre' ++ c' :: post')) =
  diff c c'.
Proof.
  intros Hpre Hpost Hpath Hgrow Htotal. unfold directory. rewrite diff_unfold.
  cbn [size_ type_ sub_files_].
  destruct (Z.leb_spec s s') as [Hle|_]; [lia|].
  cbn [Z.eqb FILE_TYPE_DIRECTORY Pos.eqb andb].
  rewrite (merge_same_entries _ _ Hpre), merge_loop_cons, Hpath, String.eqb_refl.
  destruct (Z.eqb_spec (size_ c) (size_ c')) as [E|_]; [lia|].
  destruct (Z.gtb_spec (size_ c) (size_ c')) as [_|Hn]; [|lia].
  cbn [negb].
  rewrite <- (app_nil_r post), <- (app_nil_r post'), (merge_same_entries _ _ Hpost).
  cbn [merge_loop tail_loop]. cbv zeta.
  rewrite lines_emit, change_count_emit, last_inc_emit. cbn [lines change_count last_inc].
  rewrite Htotal. cbn [Z.add Pos.add Z.eqb Pos.eqb andb].
  rewrite Z.eqb_refl. apply app_nil_r.
Qed.

Lemma X18_growth_of_one_child_is_reported_once_witness :
  Forall2 same_entry [reg_file "/r/a" 10] [reg_file "/r/a" 10] /\
  Forall2 same_entry [reg_file "/r/z" 30] [reg_file "/r/z" 30] /\
  path_ (directory "/r/d" 170 [reg_file "/r/d/f" 150]) =
    path_ (directory "/r/d" 120 [reg_file "/r/d/f" 100]) /\
  size_ (directory "/r/d" 120 [reg_file "/r/d/f" 100]) <
    size_ (directory "/r/d" 170 [reg_file "/r/d/f" 150]) /\
  diff (directory "/r" 250 ([reg_file "/r/a" 10]
                              ++ directory "/r/d" 170 [reg_file "/r/d/f" 150]
                              :: [reg_file "/r/z" 30]))
       (directory "/r" 200 ([reg_file "/r/a" 10]
                              ++ directory "/r/d" 120 [reg_file "/r/d/f" 100]
                              :: [reg_file "/r/z" 30])) =
  [RInc "/r/d/f" 50].
Proof.
  assert (Ha : Forall2 same_entry [reg_file "/r/a" 10] [reg_file "/r/a" 10])
    by (repeat constructor).
  assert (Hz : Forall2 same_entry [reg_file "/r/z" 30] [reg_file "/r/z" 30])
    by (repeat constructor).
  split; [exact Ha|]. split; [exact Hz|]. split; [reflexivity|]. split; [reflexivity|].
  rewrite (X18_growth_of_one_child_is_reported_once "/r" "/r" 250 200 _ _ _ _
             (directory "/r/d" 170 [reg_file "/r/d/f" 150])
             (directory "/r/d" 120 [reg_file "/r/d/f" 100])
             Ha Hz eq_refl eq_refl eq_refl).
  reflexivity.
Defined.

(** *** The merge on ascending children *)

Lemma ascending_strong (l : list FileInfo) :
  subs_ascending l -> StronglySorted (fun a b => PathLess a b = true) l.
Proof.
  apply Sorted_StronglySorted.
  intros a b c Hab Hbc. unfold PathLess in *. eapply path_lt_trans; eassumption.
Qed.

Lemma ascending_cons (x : FileInfo) (l : list FileInfo) :
  subs_ascending (x :: l) ->
  subs_ascending l /\ forall y, In y l -> PathLess x y = true.
Proof.
  intro H. split.
  - inversion H; assumption.
  - apply ascending_strong in H. inversion H as [|? ? _ Hall]; subst.
    apply Forall_forall. exact Hall.
Qed.

Lemma PathLess_ne (a b : FileInfo) : PathLess a b = true -> path_ a <> path_ b.
Proof.
  unfold PathLess. intros H E. rewrite E, path_lt_irrefl in H. discriminate.
Qed.

Lemma PathLess_trans (a b c : FileInfo) :
  PathLess a b = true -> PathLess b c = true -> PathLess a c = true.
Proof. unfold PathLess. apply path_lt_trans. Qed.

(** the third case of the merge: the older child comes first *)
Lemma merge_older_first (l r : FileInfo) :
  String.eqb (path_ l) (path_ r) = false -> path_lt (path_ l) (path_ r) = false ->
  PathLess r l = true.
Proof.
  intros Hne Hlt. unfold PathLess.
  destruct (path_lt_total _ _ Hlt) as [E|H]; [|exact H].
  apply String.eqb_neq in Hne. congruence.
Qed.

Lemma line_origin_cons_l (F : FileInfo -> FileInfo -> list Report)
      (l0 : FileInfo) (ls rs : list FileInfo) (x : Report) :
  (forall r, In r rs -> path_ l0 <> path_ r) ->
  line_origin F ls rs x -> line_origin F (l0 :: ls) rs x.
Proof.
  intros Hl0 [(l & r & Hl & Hr & E & Hx)|[(l & Hl & E & Hno)|(r & Hr & E & Hno)]].
  - left. exists l, r. split; [right; exact Hl|auto].
  - right. left. exists l. split; [right; exact Hl|auto].
  - right. right. exists r. split; [exact Hr|]. split; [exact E|].
    intros l [<-|Hl]; auto.
Qed.

Lemma line_origin_cons_r (F : FileInfo -> FileInfo -> list Report)
      (r0 : FileInfo) (ls rs : list FileInfo) (x : Report) :
  (forall l, In l ls -> path_ r0 <> path_ l) ->
  line_origin F ls rs x -> line_origin F ls (r0 :: rs) x.
Proof.
  intros Hr0 [(l & r & Hl & Hr & E & Hx)|[(l & Hl & E & Hno)|(r & Hr & E & Hno)]].
  - left. exists l, r. split; [exact Hl|]. split; [right; exact Hr|auto].
  - right. left. exists l. split; [exact Hl|]. split; [exact E|].
    intros r [<-|Hr]; auto.
  - right. right. exists r. split; [right; exact Hr|auto].
Qed.

Lemma line_origin_cons_both (F : FileInfo -> FileInfo -> list Report)
      (l0 r0 : FileInfo) (ls rs : list FileInfo) (x : Report) :
  (forall l, In l ls -> path_ r0 <> path_ l) ->
  (forall r, In r rs -> path_ l0 <> path_ r) ->
  line_origin F ls rs x -> line_origin F (l0 :: ls) (r0 :: rs) x.
Proof.
  intros Hr0 Hl0 [(l & r & Hl & Hr & E & Hx)|[(l & Hl & E & Hno)|(r & Hr & E & Hno)]].
  - left. exists l, r. split; [right; exact Hl|]. split; [right; exact Hr|auto].
  - right. left. exists l. split; [right; exact Hl|]. split; [exact E|].
    intros r [<-|Hr]; auto.
  - right. right. exists r. split; [right; exact Hr|]. split; [exact E|].
    intros l [<-|Hl]; auto.
Qed.

Lemma merge_lines_origin (F : FileInfo -> FileInfo -> list Report) (ls : list FileInfo) :
  subs_ascending ls ->
  forall rs, subs_ascending rs ->
  forall cc li, Forall (line_origin F ls rs) (lines (merge_loop F ls rs cc li)).
Proof.
  induction ls as [|l ls IHl]; intros Hls rs; [constructor|].
  apply ascending_cons in Hls. destruct Hls as [Hls Hl].
  induction rs as [|r rs IHr]; intros Hrs cc li.
  - rewrite merge_loop_older_done.
    destruct (tail_loop_spec (l :: ls) cc li) as (E & _). rewrite E.
    apply Forall_map, Forall_forall. intros x Hx.
    right. left. exists x. split; [exact Hx|]. split; [reflexivity|]. intros r [].
  - apply ascending_cons in Hrs. destruct Hrs as [Hrs Hr].
    rewrite merge_loop_cons.
    destruct (String.eqb (path_ l) (path_ r)) eqn:Eeq.
    + apply String.eqb_eq in Eeq. rewrite lines_emit. apply Forall_app. split.
      * apply Forall_forall. intros x Hx. left. exists l, r.
        split; [left; reflexivity|]. split; [left; reflexivity|]. auto.
      * eapply Forall_impl; [|apply IHl; assumption].
        intro x. apply line_origin_cons_both.
        -- intros l' Hl'. rewrite <- Eeq. apply PathLess_ne, Hl, Hl'.
        -- intros r' Hr'. rewrite Eeq. apply PathLess_ne, Hr, Hr'.
    + destruct (path_lt (path_ l) (path_ r)) eqn:Elt; rewrite lines_emit.
      * assert (Hlr : forall r', In r' (r :: rs) -> PathLess l r' = true).
        { intros r' [<-|Hr']; [exact Elt|]. eapply PathLess_trans; [exact Elt|apply Hr, Hr']. }
        constructor.
        -- right. left. exists l. split; [left; reflexivity|]. split; [reflexivity|].
           intros r' Hr'. apply not_eq_sym, PathLess_ne, Hlr, Hr'.
        -- assert (Hrest : forall cc' li',
                      Forall (line_origin F (l :: ls) (r :: rs))
                             (lines (merge_loop F ls (r :: rs) cc' li'))).
           { intros cc' li'. eapply Forall_impl; [|apply IHl; [exact Hls|constructor]].
             - intro x. apply line_origin_cons_l.
               intros r' Hr'. apply PathLess_ne, Hlr, Hr'.
             - exact Hrs.
             - destruct rs as [|r1 rs1]; constructor. apply Hr. left. reflexivity. }
           destruct (size_ l >? 0); apply Hrest.
      * pose proof (merge_older_first _ _ Eeq Elt) as Hgt.
        assert (Hrl : forall l', In l' (l :: ls) -> PathLess r l' = true).
        { intros l' [<-|Hl']; [exact Hgt|]. eapply PathLess_trans; [exact Hgt|apply Hl, Hl']. }
        constructor.
        -- right. right. exists r. split; [left; reflexivity|]. split; [reflexivity|].
           intros l' Hl'. apply not_eq_sym, PathLess_ne, Hrl, Hl'.
        -- assert (Hrest : forall cc' li',
                      Forall (line_origin F (l :: ls) (r :: rs))
                             (lines (merge_loop F (l :: ls) rs cc' li'))).
           { intros cc' li'. eapply Forall_impl; [|apply IHr; exact Hrs].
             intro x. apply line_origin_cons_r.
             intros l' Hl'. apply PathLess_ne, Hrl, Hl'. }
           destruct (size_ r >? 0); apply Hrest.
Qed.

(** X19: for two children sequences that are strictly ascending by
    path, every line the merge produces has one of three origins: it is
    a line of the recursive call on two children of the same path, or
    the new-line of a newer child whose path no older child has, or the
    deletion line of an older child whose path no newer child has.  A
    child present on both sides is never reported as new or deleted. *)
Theorem X19_merge_lines_have_an_origin (F : FileInfo -> FileInfo -> list Report)
        (ls rs : list FileInfo) (cc li : Z) :
  subs_ascending ls -> subs_ascending rs ->
  Forall (line_origin F ls rs) (lines (merge_loop F ls rs cc li)).
Proof. intros Hls Hrs. apply merge_lines_origin; assumption. Qed.

Lemma X19_merge_lines_have_an_origin_witness :
  subs_ascending (sub_files_ new_last_newer) /\
  subs_ascending (sub_files_ new_inner_older) /\
  Forall (line_origin diff (sub_files_ new_last_newer) (sub_files_ new_inner_older))
         [RNew "/r/b" 50].
Proof.
  assert (Hl : subs_ascending (sub_files_ new_last_newer)) by (repeat constructor).
  assert (Hr : subs_ascending (sub_files_ new_inner_older)) by (repeat constructor).
  split; [exact Hl|]. split; [exact Hr|].
  exact (X19_merge_lines_have_an_origin diff _ _ 0 0 Hl Hr).
Defined.

Lemma merge_lines_complete (F : FileInfo -> FileInfo -> list Report) (ls : list FileInfo) :
  subs_ascending ls ->
  forall rs, subs_ascending rs ->
  forall cc li x,
    (exists l r, In l ls /\ In r rs /\ path_ l = path_ r /\ In x (F l r)) \/
    (exists l, In l ls /\ x = RNew (path_ l) (size_ l) /\
               forall r, In r rs -> path_ r <> path_ l) \/
    (exists r l, In r rs /\ In l ls /\ PathLess r l = true /\
                 x = RDel (path_ r) (size_ r) /\
                 forall l', In l' ls -> path_ l' <> path_ r) ->
    In x (lines (merge_loop F ls rs cc li)).
Proof.
  induction ls as [|l0 ls IHl]; intros Hls rs.
  { intros _ cc li x [(l & r & [] & _)|[(l & [] & _)|(r & l & _ & [] & _)]]. }
  apply ascending_cons in Hls. destruct Hls as [Hls Hl0].
  induction rs as [|r0 rs IHr]; intros Hrs cc li x Hx.
  - rewrite merge_loop_older_done.
    destruct (tail_loop_spec (l0 :: ls) cc li) as (E & _). rewrite E.
    destruct Hx as [(l & r & _ & [] & _)|[(l & Hl & -> & _)|(r & l & [] & _)]].
    apply (in_map (fun lfile => RNew (path_ lfile) (size_ lfile))). exact Hl.
  - apply ascending_cons in Hrs. destruct Hrs as [Hrs Hr0].
    rewrite merge_loop_cons.
    destruct (String.eqb (path_ l0) (path_ r0)) eqn:Eeq.
    + apply String.eqb_eq in Eeq. rewrite lines_emit. apply in_or_app.
      destruct Hx as [(l & r & Hl & Hr & E & Hx)|[(l & Hl & -> & Hno)|
                      (r & l & Hr & Hl & Hlt & -> & Hno)]].
      * destruct Hl as [<-|Hl], Hr as [<-|Hr].
        -- left. exact Hx.
        -- exfalso. apply (PathLess_ne _ _ (Hr0 _ Hr)). congruence.
        -- exfalso. apply (PathLess_ne _ _ (Hl0 _ Hl)). congruence.
        -- right. apply IHl; [exact Hls|exact Hrs|]. left. exists l, r. auto.
      * destruct Hl as [<-|Hl].
        -- exfalso. apply (Hno r0); [left; reflexivity|]. congruence.
        -- right. apply IHl; [exact Hls|exact Hrs|]. right. left. exists l.
           split; [exact Hl|]. split; [reflexivity|]. intros r Hr. apply Hno. right. exact Hr.
      * destruct Hr as [<-|Hr].
        -- exfalso. apply (Hno l0); [left; reflexivity|]. exact Eeq.
        -- destruct Hl as [<-|Hl].
           ++ exfalso. pose proof (Hr0 _ Hr) as H1. unfold PathLess in *.
              rewrite <- Eeq in H1. pose proof (path_lt_trans _ _ _ H1 Hlt) as H2.
              rewrite path_lt_irrefl in H2. discriminate.
           ++ right. apply IHl; [exact Hls|exact Hrs|]. right. right. exists r, l.
              split; [exact Hr|]. split; [exact Hl|]. split; [exact Hlt|].
              split; [reflexivity|]. intros l' Hl'. apply Hno. right. exact Hl'.
    + destruct (path_lt (path_ l0) (path_ r0)) eqn:Elt; rewrite lines_emit.
      * assert (Hlr : forall r', In r' (r0 :: rs) -> PathLess l0 r' = true).
        { intros r' [<-|Hr']; [exact Elt|]. eapply PathLess_trans; [exact Elt|apply Hr0, Hr']. }
        assert (Hrs' : subs_ascending (r0 :: rs)).
        { constructor; [exact Hrs|]. destruct rs as [|r1 rs1]; constructor.
          apply Hr0. left. reflexivity. }
        assert (Hrest : forall cc' li',
                   (exists l r, In l ls /\ In r (r0 :: rs) /\ path_ l = path_ r /\ In x (F l r)) \/
                   (exists l, In l ls /\ x = RNew (path_ l) (size_ l) /\
                              forall r, In r (r0 :: rs) -> path_ r <> path_ l) \/
                   (exists r l, In r (r0 :: rs) /\ In l ls /\ PathLess r l = true /\
                                x = RDel (path_ r) (size_ r) /\
                                forall l', In l' ls -> path_ l' <> path_ r) ->
                   In x (lines (merge_loop F ls (r0 :: rs) cc' li'))).
        { intros cc' li'. apply IHl; assumption. }
        cbn [app].
        destruct Hx as [(l & r & Hl & Hr & E & Hx)|[(l & Hl & -> & Hno)|
                        (r & l & Hr & Hl & Hlt & -> & Hno)]].
        -- destruct Hl as [<-|Hl].
           ++ exfalso. apply (PathLess_ne _ _ (Hlr _ Hr)). exact E.
           ++ right. destruct (size_ l0 >? 0); apply Hrest; left; exists l, r; auto.
        -- destruct Hl as [<-|Hl]; [left; reflexivity|].
           right. destruct (size_ l0 >? 0); apply Hrest; right; left; exists l; auto.
        -- destruct Hl as [<-|Hl].
           ++ exfalso. pose proof (Hlr _ Hr) as H1.
              pose proof (PathLess_trans _ _ _ H1 Hlt) as H2.
              apply (PathLess_ne _ _ H2). reflexivity.
           ++ right. destruct (size_ l0 >? 0); apply Hrest; right; right; exists r, l;
                (split; [exact Hr|]); (split; [exact Hl|]); (split; [exact Hlt|]);
                (split; [reflexivity|]); intros l' Hl'; apply Hno; right; exact Hl'.
      * pose proof (merge_older_first _ _ Eeq Elt) as Hgt.
        assert (Hrl : forall l', In l' (l0 :: ls) -> PathLess r0 l' = true).
        { intros l' [<-|Hl']; [exact Hgt|]. eapply PathLess_trans; [exact Hgt|apply Hl0, Hl']. }
        cbn [app].
        destruct Hx as [(l & r & Hl & Hr & E & Hx)|[(l & Hl & -> & Hno)|
                        (r & l & Hr & Hl & Hlt & -> & Hno)]].
        -- destruct Hr as [<-|Hr].
           ++ exfalso. apply (PathLess_ne _ _ (Hrl _ Hl)). symmetry. exact E.
           ++ right. destruct (size_ r0 >? 0); apply (IHr Hrs); left; exists l, r; auto.
        -- right. destruct (size_ r0 >? 0); apply (IHr Hrs); right; left; exists l;
             (split; [exact Hl|]); (split; [reflexivity|]); intros r Hr; apply Hno; right; exact Hr.
        -- destruct Hr as [<-|Hr]; [left; reflexivity|].
           right. destruct (size_ r0 >? 0); apply (IHr Hrs); right; right; exists r, l; auto.
Qed.

(** X20: when two directories are compared whose children are strictly
    ascending by path and the newer one is larger, [diff] misses no
    child of the newer tree: the lines of the recursive call on two
    children of the same path are among its lines, and a newer child
    whose path no older child has is reported as new with its size.  An
    older child whose path no newer child has is reported as deleted
    when some newer child comes after it. *)
Theorem X20_diff_reports_every_newer_child (newer older : FileInfo) :
  size_ older < size_ newer ->
  type_ newer = FILE_TYPE_DIRECTORY -> type_ older = FILE_TYPE_DIRECTORY ->
  subs_ascending (sub_files_ newer) -> subs_ascending (sub_files_ older) ->
  (forall l r, In l (sub_files_ newer) -> In r (sub_files_ older) ->
               path_ l = path_ r -> incl (diff l r) (diff newer older)) /\
  (forall l, In l (sub_files_ newer) ->
             (forall r, In r (sub_files_ older) -> path_ r <> path_ l) ->
             In (RNew (path_ l) (size_ l)) (diff newer older)) /\
  (forall r l, In r (sub_files_ older) -> In l (sub_files_ newer) ->
               PathLess r l = true ->
               (forall l', In l' (sub_files_ newer) -> path_ l' <> path_ r) ->
               In (RDel (path_ r) (size_ r)) (diff newer older)).
Proof.
  intros Hgrow Hn Ho Hls Hrs.
  assert (Hsub : incl (lines (merge_loop diff (sub_files_ newer) (sub_files_ older) 0 0))
                      (diff newer older)).
  { destruct newer as [s p l t]. cbn [size_ type_ sub_files_] in *. rewrite diff_unfold.
    destruct (Z.leb_spec s (size_ older)) as [Hle|_]; [lia|].
    rewrite Hn, Ho. cbn [Z.eqb FILE_TYPE_DIRECTORY Pos.eqb andb]. cbv zeta.
    destruct ((change_count (merge_loop diff l (sub_files_ older) 0 0) =? 1) &&
              (last_inc (merge_loop diff l (sub_files_ older) 0 0) =? s - size_ older));
      [apply incl_refl|apply incl_appl, incl_refl]. }
  pose proof (merge_lines_complete diff _ Hls _ Hrs 0 0) as Hc.
  split; [|split].
  - intros l r Hl Hr E x Hx. apply Hsub, Hc. left. exists l, r. auto.
  - intros l Hl Hno. apply Hsub, Hc. right. left. exists l. auto.
  - intros r l Hr Hl Hlt Hno. apply Hsub, Hc. right. right. exists r, l. auto.
Qed.

Lemma X20_diff_reports_every_newer_child_witness :
  size_ gone_last_older < size_ gone_last_newer /\
  type_ gone_last_newer = FILE_TYPE_DIRECTORY /\
  type_ gone_last_older = FILE_TYPE_DIRECTORY /\
  subs_ascending (sub_files_ gone_last_newer) /\
  subs_ascending (sub_files_ gone_last_older) /\
  incl (diff (reg_file "/r/a" 150) (reg_file "/r/a" 100))
       (diff gone_last_newer gone_last_older).
Proof.
  assert (Hl : subs_ascending (sub_files_ gone_last_newer)) by (repeat constructor).
  assert (Hr : subs_ascending (sub_files_ gone_last_older)) by (repeat constructor).
  split; [reflexivity|]. split; [reflexivity|]. split; [reflexivity|].
  split; [exact Hl|]. split; [exact Hr|].
  apply (proj1 (X20_diff_reports_every_newer_child gone_last_newer gone_last_older
                  eq_refl eq_refl eq_refl Hl Hr)).
  - left. reflexivity.
  - left. reflexivity.
  - reflexivity.
Defined.

(** ** The commands *)

Lemma height_le_iff (f : FileInfo) (k : nat) :
  (height f <= k)%nat <-> Forall (fun c => (S (height c) <= k)%nat) (sub_files_ f).
Proof.
  split; [|apply height_le].
  destruct f as [s p l t]. cbn [sub_files_ height].
  induction l as [|c r IH]; intro H; constructor.
  - eapply Nat.le_trans; [apply Nat.le_max_l|exact H].
  - apply IH. eapply Nat.le_trans; [apply Nat.le_max_r|exact H].
Qed.

Lemma reloaded_height (f : FileInfo) :
  forall k, (height f <= k)%nat -> (height (reloaded f) <= k)%nat.
Proof.
  induction f as [s p l t IH] using FileInfo_ind'. intros k H.
  apply height_le_iff in H. cbn [sub_files_] in H.
  cbn [reloaded]. apply height_le_iff. cbn [sub_files_].
  apply sort_list_Forall, Forall_map.
  rewrite Forall_forall in *. intros c Hc.
  pose proof (H c Hc) as Hk. destruct k as [|k]; [lia|].
  apply le_n_S, (IH c Hc). lia.
Qed.

Lemma reloaded_size (f : FileInfo) : size_ (reloaded f) = to_unsigned (size_ f).
Proof. destruct f. reflexivity. Qed.

(** X21: [main] returns 0 or -1.  With fewer than two arguments it
    returns 0 and does nothing; when it returns -1 no snapshot was
    written and no line of [diff] logged; a run never does both. *)
Theorem X21_main_exit_codes (w : World) (argv : list string) :
  ((List.length argv < 2)%nat -> main w argv = Exited 0 [] None) /\
  (forall code report written,
      main w argv = Exited code report written ->
      (code = 0 \/ code = -1) /\
      (code = -1 -> report = [] /\ written = None) /\
      (written <> None -> report = [])).
Proof.
  split.
  - destruct argv as [|a [|b r]]; cbn [List.length]; intro H; try reflexivity. lia.
  - intros code report written.
    assert (Hstat : forall args, cmd_stat w args = Exited code report written ->
              (code = 0 \/ code = -1) /\ (code = -1 -> report = [] /\ written = None) /\
              (written <> None -> report = [])).
    { intros args. unfold cmd_stat. destruct args as [|root [|x r]];
        try destruct (can_write w (make_json_file_name root (now w)));
        intro H; injection H as <- <- <-; repeat split; auto; discriminate. }
    assert (Hdiff : forall args, cmd_diff w args = Exited code report written ->
              (code = 0 \/ code = -1) /\ (code = -1 -> report = [] /\ written = None) /\
              (written <> None -> report = [])).
    { intros args. unfold cmd_diff. destruct args as [|a [|b [|x r]]];
        try (intro H; injection H as <- <- <-; repeat split; auto; discriminate).
      destruct (from_json_file (read_file w a) FileInfo0) as [[|] o|]; try discriminate;
        try (intro H; injection H as <- <- <-; repeat split; auto; discriminate).
      destruct (from_json_file (read_file w b) FileInfo0) as [[|] n|]; try discriminate;
        intro H; injection H as <- <- <-; repeat split; auto; try discriminate.
      intro N. destruct (N eq_refl). }
    unfold main. destruct argv as [|prog [|cmd args]];
      try (intro H; injection H as <- <- <-; repeat split; auto; discriminate).
    destruct (String.eqb "s" cmd || String.eqb "stat" cmd); [apply Hstat|].
    destruct (String.eqb "d" cmd || String.eqb "diff" cmd); [apply Hdiff|].
    intro H; injection H as <- <- <-; repeat split; auto; discriminate.
Qed.

Lemma X21_main_exit_codes_witness :
  (List.length ["dmon"] < 2)%nat /\
  main (mkWorld (fun _ => fs_deep) (fun _ => None) (fun _ => true)
                (mkClock 119 0 2 3 4 5 6)) ["dmon"] = Exited 0 [] None.
Proof.
  split; [repeat constructor|].
  apply (proj1 (X21_main_exit_codes _ ["dmon"])). repeat constructor.
Defined.

(** X22: [stat root] exits with 0 whenever the snapshot file can be
    opened for writing, also for a root that does not exist or is no
    directory.  The document it writes, to a file in the working
    directory, deserializes to a tree with the path [root], children
    ascending at every node and at most five levels, whose size is the
    total below the root modulo 2^32.  For a root that [lstat] does not
    find the document holds the path, size 0 and type 0 only. *)
Theorem X22_stat_writes_a_loadable_snapshot (w : World) (prog root : string) :
  can_write w (make_json_file_name root (now w)) = true ->
  exists doc n,
    main w [prog; "stat"; root] =
      Exited 0 [] (Some (make_json_file_name root (now w), doc)) /\
    no_sep (make_json_file_name root (now w)) = true /\
    deserialize doc = Done true n /\
    path_ n = root /\ tree_sorted n /\ (height n <= 5)%nat /\
    size_ n = to_size_t (fs_total (lookup w root)) mod 2 ^ 32 /\
    (lstat (lookup w root) = None ->
     doc = JObject [("path", JString root); ("size", JInt 0); ("type", JInt 0)]).
Proof.
  intro Hw. exists (to_json (build root (lookup w root) 5)).
  exists (reloaded (build root (lookup w root) 5)).
  assert (E : deserialize (to_json (build root (lookup w root) 5)) =
              Done true (reloaded (build root (lookup w root) 5)))
    by apply from_json_to_json.
  split; [cbn [main String.eqb Ascii.eqb Bool.eqb orb cmd_stat]; rewrite Hw; reflexivity|].
  split.
  { unfold make_json_file_name.
    rewrite !no_sep_app, flatten_path_no_sep, time_to_str_no_sep. reflexivity. }
  split; [exact E|].
  split; [rewrite reloaded_path; apply build_path|].
  split; [eapply from_json_tree_sorted; [apply tree_sorted_FileInfo0|exact E]|].
  split; [apply reloaded_height, (build_height _ root 5)|].
  split; [rewrite reloaded_size, build_size; reflexivity|].
  intro Hl. unfold build. rewrite Hl.
  rewrite walk_not_dir by reflexivity. reflexivity.
Qed.

Lemma X22_stat_writes_a_loadable_snapshot_witness :
  can_write (mkWorld (fun _ => mkFsNode None None) (fun _ => None) (fun _ => true)
                     (mkClock 119 0 2 3 4 5 6))
            (make_json_file_name "/nowhere" (mkClock 119 0 2 3 4 5 6)) = true /\
  main (mkWorld (fun _ => mkFsNode None None) (fun _ => None) (fun _ => true)
                (mkClock 119 0 2 3 4 5 6)) ["dmon"; "stat"; "/nowhere"] =
    Exited 0 [] (Some ("dirs__nowhere2019.01.02-03.04.05.000006.json",
                       JObject [("path", JString "/nowhere"); ("size", JInt 0);
                                ("type", JInt 0)])).
Proof.
  split; [reflexivity|].
  destruct (X22_stat_writes_a_loadable_snapshot
              (mkWorld (fun _ => mkFsNode None None) (fun _ => None) (fun _ => true)
                       (mkClock 119 0 2 3 4 5 6)) "dmon" "/nowhere" eq_refl)
    as (doc & n & E & _).
  reflexivity.
Defined.

(** X23: when [diff old new] exits with 0, both files held a document
    with an object at the root; the lines are those of [diff] with the
    tree of the second file as the newer one and the tree of the first
    as the older one, both with children ascending at every node; no
    file is written.  It returns -1 exactly when the first file does not
    load, or the first loads and the second does not. *)
Theorem X23_diff_compares_second_file_against_first
        (w : World) (prog old_stat new_stat : string) :
  (forall report written,
      main w [prog; "diff"; old_stat; new_stat] = Exited 0 report written ->
      exists old_file new_file,
        from_json_file (read_file w old_stat) FileInfo0 = Done true old_file /\
        from_json_file (read_file w new_stat) FileInfo0 = Done true new_file /\
        tree_sorted old_file /\ tree_sorted new_file /\
        report = diff new_file old_file /\ written = None) /\
  ((exists report written,
       main w [prog; "diff"; old_stat; new_stat] = Exited (-1) report written) <->
   (exists this, from_json_file (read_file w old_stat) FileInfo0 = Done false this) \/
   ((exists old_file, from_json_file (read_file w old_stat) FileInfo0 = Done true old_file) /\
    exists this, from_json_file (read_file w new_stat) FileInfo0 = Done false this)).
Proof.
  cbn [main String.eqb Ascii.eqb Bool.eqb orb cmd_diff].
  assert (Hsorted : forall file n,
             from_json_file file FileInfo0 = Done true n -> tree_sorted n).
  { intros [[|doc]|] n; cbn [from_json_file]; try discriminate.
    apply from_json_tree_sorted, tree_sorted_FileInfo0. }
  split.
  - intros report written.
    destruct (from_json_file (read_file w old_stat) FileInfo0) as [[|] o|] eqn:Eo;
      try discriminate.
    destruct (from_json_file (read_file w new_stat) FileInfo0) as [[|] n|] eqn:En;
      try discriminate.
    intro H. injection H as <- <-. exists o, n.
    repeat split; eauto.
  - destruct (from_json_file (read_file w old_stat) FileInfo0) as [[|] o|] eqn:Eo.
    + destruct (from_json_file (read_file w new_stat) FileInfo0) as [[|] n|] eqn:En.
      * split; [intros (r & wr & H); discriminate|].
        intros [(t & H)|(_ & t & H)]; discriminate.
      * split; [|intros _; eexists; eexists; reflexivity].
        intros _. right. split; eexists; reflexivity.
      * split; [intros (r & wr & H); discriminate|].
        intros [(t & H)|(_ & t & H)]; discriminate.
    + split; [|intros _; eexists; eexists; reflexivity].
      intros _. left. eexists; reflexivity.
    + split; [intros (r & wr & H); discriminate|].
      intros [(t & H)|((o & H) & _)]; discriminate.
Qed.

Lemma X23_diff_compares_second_file_against_first_witness :
  main (mkWorld (fun _ => fs_deep)
                (fun name => if String.eqb name "old"
                             then Some (Document (to_json new_last_older))
                             else Some (Document (to_json new_last_newer)))
                (fun _ => true) (mkClock 119 0 2 3 4 5 6))
       ["dmon"; "diff"; "old"; "new"] =
    Exited 0 [RNew "/r/b" 50; RInc "/r" 50] None /\
  [RNew "/r/b" 50; RInc "/r" 50] = diff new_last_newer new_last_older.
Proof.
  set (w := mkWorld (fun _ => fs_deep)
                (fun name => if String.eqb name "old"
                             then Some (Document (to_json new_last_older))
                             else Some (Document (to_json new_last_newer)))
                (fun _ => true) (mkClock 119 0 2 3 4 5 6)).
  assert (E : main w ["dmon"; "diff"; "old"; "new"] =
              Exited 0 [RNew "/r/b" 50; RInc "/r" 50] None) by reflexivity.
  split; [exact E|].
  destruct (proj1 (X23_diff_compares_second_file_against_first w "dmon" "old" "new") _ _ E)
    as (o & n & Eo & En & _ & _ & Hr & _).
  change (from_json_file (read_file w "old") FileInfo0) with (Done true new_last_older) in Eo.
  change (from_json_file (read_file w "new") FileInfo0) with (Done true new_last_newer) in En.
  injection Eo as <-. injection En as <-. exact Hr.
Defined.

(** X24: [diff] on two snapshots written by [stat] compares the sizes as
    the codec keeps them.  For the snapshots of two trees the run exits
    with 0 and logs [diff] of the two reloaded trees; it logs nothing
    exactly when the root size of the newer tree modulo 2^32 is not
    above that of the older tree modulo 2^32.  Two snapshots of the same
    tree give no line. *)
Theorem X24_diff_of_snapshots (w : World) (prog old_stat new_stat : string)
        (older newer : FileInfo) :
  read_file w old_stat = Some (Document (to_json older)) ->
  read_file w new_stat = Some (Document (to_json newer)) ->
  main w [prog; "diff"; old_stat; new_stat] =
    Exited 0 (diff (reloaded newer) (reloaded older)) None /\
  (diff (reloaded newer) (reloaded older) = [] <->
   size_ newer mod 2 ^ 32 <= size_ older mod 2 ^ 32) /\
  (older = newer -> main w [prog; "diff"; old_stat; new_stat] = Exited 0 [] None).
Proof.
  intros Eo En.
  assert (E : main w [prog; "diff"; old_stat; new_stat] =
              Exited 0 (diff (reloaded newer) (reloaded older)) None).
  { cbn [main String.eqb Ascii.eqb Bool.eqb orb cmd_diff]. rewrite Eo, En.
    cbn [from_json_file]. rewrite !from_json_to_json. reflexivity. }
  split; [exact E|]. split.
  - rewrite diff_silent_iff, !reloaded_size. reflexivity.
  - intros ->. rewrite E, diff_no_growth by apply Z.le_refl. reflexivity.
Qed.

Lemma X24_diff_of_snapshots_witness :
  main (mkWorld (fun _ => fs_deep)
                (fun name => if String.eqb name "old"
                             then Some (Document (to_json (reg_file "/big" (3 * 2 ^ 30))))
                             else Some (Document (to_json (reg_file "/big" (5 * 2 ^ 30)))))
                (fun _ => true) (mkClock 119 0 2 3 4 5 6))
       ["dmon"; "diff"; "old"; "new"] = Exited 0 [] None.
Proof.
  set (w := mkWorld (fun _ => fs_deep)
                (fun name => if String.eqb name "old"
                             then Some (Document (to_json (reg_file "/big" (3 * 2 ^ 30))))
                             else Some (Document (to_json (reg_file "/big" (5 * 2 ^ 30)))))
                (fun _ => true) (mkClock 119 0 2 3 4 5 6)).
  rewrite (proj1 (X24_diff_of_snapshots w "dmon" "old" "new"
                    (reg_file "/big" (3 * 2 ^ 30)) (reg_file "/big" (5 * 2 ^ 30))
                    eq_refl eq_refl)).
  reflexivity.
Defined.

Lemma codec_exact_nodes (f : FileInfo) :
  codec_exact f -> Forall (fun n => subs_ascending (sub_files_ n)) (nodes f).
Proof.
  induction f as [s p l t IH] using FileInfo_ind'.
  rewrite codec_exact_unfold. intros (_ & _ & Hasc & Hl).
  rewrite nodes_unfold. cbn [sub_files_]. constructor; [exact Hasc|].
  apply Forall_flat_map. rewrite Forall_forall in *. intros x Hx. apply (IH x Hx), Hl, Hx.
Qed.

(** X25: when no directory lists a name twice, the tree loaded from the
    snapshot of a walk has strictly ascending children at every node,
    which is what the merge of [diff] relies on; reading the snapshot
    again after writing the loaded tree gives the same tree. *)
Theorem X25_snapshot_of_a_walk_is_strictly_ascending
        (root : string) (fs : FsNode) (depth : Z) :
  distinct_names fs ->
  exists n,
    deserialize (to_json (build root fs depth)) = Done true n /\
    Forall (fun m => subs_ascending (sub_files_ m)) (nodes n) /\
    deserialize (to_json n) = Done true n.
Proof.
  intro Hfs. exists (reloaded (build root fs depth)).
  assert (Hex : codec_exact (reloaded (build root fs depth))).
  { apply reloaded_codec_exact. apply (build_nodes_Forall distinct_names).
    - intros st ents e H Hin. apply distinct_names_unfold in H.
      destruct H as [_ Hall]. rewrite Forall_forall in Hall. apply Hall. exact Hin.
    - intros. apply build_node_distinct. assumption.
    - exact Hfs. }
  split; [apply from_json_to_json|]. split.
  - apply codec_exact_nodes. exact Hex.
  - apply round_trip_exact. exact Hex.
Qed.

Lemma X25_snapshot_of_a_walk_is_strictly_ascending_witness :
  distinct_names fs_b_then_a /\
  exists n,
    deserialize (to_json (build "/r" fs_b_then_a 5)) = Done true n /\
    Forall (fun m => subs_ascending (sub_files_ m)) (nodes n).
Proof.
  assert (H : distinct_names fs_b_then_a).
  { cbn. repeat split; repeat constructor; cbn; intro H;
      repeat destruct H as [H|H]; try discriminate; exact H. }
  split; [exact H|].
  destruct (X25_snapshot_of_a_walk_is_strictly_ascending "/r" fs_b_then_a 5 H)
    as (n & E & Hasc & _).
  exists n. split; assumption.
Defined.
